(** * Greedy best-first path search (networkx.algorithms.shortest_paths.greedy)

    A shallow embedding of [greedy_path] and the properties of its frontier,
    its two ledgers ([enqueued], [explored]) and its path reconstruction.

    Modelling conventions.
    - Nodes are any countable type [V] (Python: hashable); [format] renders a
      node inside an error message, as [str.format] and [%s] do.
    - Numbers (edge weights, heuristic values, distances) are integers [Z].
    - [G._adj] is a dictionary of dictionaries.  The outer one is only ever
      indexed, so it is a [gmap]; the inner one is iterated with [.items()],
      whose order fixes the discovery sequence numbers, so it is an
      association list in insertion order.
    - [enqueued] and [explored] are dictionaries used as maps: [gmap].
    - The frontier is the list handed to [heappush]/[heappop]; [heappop]
      removes the least entry in the tuple order on (priority, sequence).
    - The two [while] loops carry a fuel argument; running dry is the
      distinguished outcome [OutOfFuel], never a result.
    - Lines 82 and 106 of the source are indented one level off from their
      context; they are read at the depth the context fixes: the [while] is
      a statement of the function body, and the [continue] closes the
      [if neighbor in enqueued] branch. *)

From stdpp Require Import gmap strings list fin_maps relations.
From stdpp Require Import sorting.
From Stdlib Require Import ZArith Lia.

Local Open Scope Z_scope.

(** ** Outcomes of a call *)

Section Outcome.
Context {V : Type}.

Inductive exn : Type :=
| NodeNotFound (msg : string)
| NetworkXNoPath (msg : string)
| UnsupportedGraphKind
| KeyError (key : V).

Inductive outcome (A : Type) : Type :=
| Return (a : A)
| Raise (e : exn)
| OutOfFuel.
End Outcome.

Arguments exn : clear implicits.
Arguments outcome : clear implicits.
Arguments Return {V A} a.
Arguments Raise {V A} e.
Arguments OutOfFuel {V A}.

(** ** The graph collaborator *)

Record Graph (V : Type) `{Countable V} : Type := mkGraph {
  is_multigraph : bool;
  nodes : gset V;
  adj : gmap V (list (V * gmap string Z))
}.

Arguments mkGraph {V _ _} _ _ _.
Arguments is_multigraph {V _ _} _.
Arguments nodes {V _ _} _.
Arguments adj {V _ _} _.

(** ** Frontier entries and the priority queue *)

Record QueueEntry (V : Type) : Type := mkEntry {
  priority : Z;
  seqno : nat;
  qnode : V;
  qdist : Z;
  qparent : option V
}.

Arguments mkEntry {V} _ _ _ _ _.
Arguments priority {V} _.
Arguments seqno {V} _.
Arguments qnode {V} _.
Arguments qdist {V} _.
Arguments qparent {V} _.

Section Heap.
Context {V : Type}.

(** Tuple order of Python on the first two components. *)
Definition entry_le (a b : QueueEntry V) : bool :=
  (priority a <? priority b) ||
  ((priority a =? priority b) && (seqno a <=? seqno b)%nat).

Definition heappush (q : list (QueueEntry V)) (e : QueueEntry V)
  : list (QueueEntry V) := q ++ [e].

Fixpoint pop_least (e : QueueEntry V) (q : list (QueueEntry V))
  : QueueEntry V * list (QueueEntry V) :=
  match q with
  | [] => (e, [])
  | x :: q' =>
      let '(m, r) := pop_least x q' in
      if entry_le e m then (e, x :: q') else (m, e :: r)
  end.

Definition heappop (q : list (QueueEntry V))
  : option (QueueEntry V * list (QueueEntry V)) :=
  match q with
  | [] => None
  | e :: q' => Some (pop_least e q')
  end.
End Heap.

(** ** Search state and the algorithm *)

Record state (V : Type) `{Countable V} : Type := mkState {
  queue : list (QueueEntry V);
  c : nat;
  enqueued : gmap V (Z * Z);
  explored : gmap V (option V)
}.

Arguments mkState {V _ _} _ _ _ _.
Arguments queue {V _ _} _.
Arguments c {V _ _} _.
Arguments enqueued {V _ _} _.
Arguments explored {V _ _} _.

Inductive step_result (V : Type) `{Countable V} : Type :=
| Continue (st : state V)
| Finished (o : outcome V (list V)).

Arguments Continue {V _ _} st.
Arguments Finished {V _ _} o.

Section Greedy.
Context {V : Type} `{Countable V}.
Variable format : V → string.

Definition contains (G : Graph V) (n : V) : bool := bool_decide (n ∈ nodes G).

Definition getitem (G : Graph V) (n : V) : option (list (V * gmap string Z)) :=
  adj G !! n.

Definition has_edge (G : Graph V) (u v : V) : Prop :=
  ∃ nbrs a, getitem G u = Some nbrs ∧ (v, a) ∈ nbrs.

Definition node_not_found_msg (source target : V) : string :=
  "Either source " +:+ format source +:+ " or target " +:+ format target
    +:+ " is not in G".

Definition no_path_msg (source target : V) : string :=
  "Node " +:+ format target +:+ " not reachable from " +:+ format source.

Definition default_heuristic (u v : V) : Z := 0.

(** Path reconstruction: lines 87-93. *)
Fixpoint walk (fuel : nat) (ex : gmap V (option V)) (node : option V)
    (path : list V) : outcome V (list V) :=
  match node with
  | None => Return (reverse path)
  | Some n =>
      match fuel with
      | O => OutOfFuel
      | S fuel' =>
          match ex !! n with
          | None => Raise (KeyError n)
          | Some p => walk fuel' ex p (path ++ [n])
          end
      end
  end.

Definition init (source : V) : state V :=
  mkState [mkEntry 0 0%nat source 0 None] 1%nat ∅ ∅.

Section Search.
Variable G : Graph V.
Variables source target : V.
Variable heuristic : V → V → Z.
Variable weight : string.

(** One round of the [for] loop: lines 103-110. *)
Definition visit (curnode : V) (dist : Z) (st : state V)
    (item : V * gmap string Z) : state V :=
  let '(neighbor, w) := item in
  let ncost := dist + default 1 (w !! weight) in
  match enqueued st !! neighbor with
  | Some (qcost, h) => st
  | None =>
      let h := heuristic neighbor target in
      mkState (heappush (queue st)
                 (mkEntry h (c st) neighbor ncost (Some curnode)))
              (S (c st))
              (<[neighbor := (ncost, h)]> (enqueued st))
              (explored st)
  end.

Definition expand (curnode : V) (dist : Z)
    (items : list (V * gmap string Z)) (st : state V) : state V :=
  foldl (visit curnode dist) st items.

(** One round of the [while] loop: lines 82-110, and line 112 when the
    queue is empty. *)
Definition loop_body (wfuel : nat) (st : state V) : step_result V :=
  match heappop (queue st) with
  | None => Finished (Raise (NetworkXNoPath (no_path_msg source target)))
  | Some (e, q) =>
      let curnode := qnode e in
      let dist := qdist e in
      let parent := qparent e in
      if decide (curnode = target) then
        Finished (walk wfuel (explored st) parent [curnode])
      else if decide (explored st !! curnode = Some None) then
        Continue (mkState q (c st) (enqueued st) (explored st))
      else
        let ex := <[curnode := parent]> (explored st) in
        match getitem G curnode with
        | None => Finished (Raise (KeyError curnode))
        | Some items =>
            Continue (expand curnode dist items
                        (mkState q (c st) (enqueued st) ex))
        end
  end.

Fixpoint greedy_loop (wfuel fuel : nat) (st : state V)
    : outcome V (list V) :=
  match fuel with
  | O => OutOfFuel
  | S fuel' =>
      match loop_body wfuel st with
      | Finished o => o
      | Continue st' => greedy_loop wfuel fuel' st'
      end
  end.
End Search.

(** The function body, lines 55-112. *)
Definition greedy_path_body (fuel : nat) (G : Graph V) (source target : V)
    (heuristic : option (V → V → Z)) (weight : string)
    : outcome V (list V) :=
  if negb (contains G source) || negb (contains G target) then
    Raise (NodeNotFound (node_not_found_msg source target))
  else
    let heuristic := default default_heuristic heuristic in
    greedy_loop G source target heuristic weight fuel fuel (init source).

(** Modelled from the spec: the decorator [not_implemented_for] of
    [networkx.utils] is not part of the sources at hand.  Section 7 of the
    specification says that the multigraph check comes first and fails
    with the unsupported-graph-kind error before traversal. *)
Definition not_implemented_for_multigraph {A : Type} (G : Graph V)
    (f : Graph V → outcome V A) : outcome V A :=
  if is_multigraph G then Raise UnsupportedGraphKind else f G.

Definition greedy_path (fuel : nat) (G : Graph V) (source target : V)
    (heuristic : option (V → V → Z)) (weight : string)
    : outcome V (list V) :=
  not_implemented_for_multigraph G
    (λ G, greedy_path_body fuel G source target heuristic weight).

End Greedy.

(** ** Specification predicates *)

Section Predicates.
Context {V : Type} `{Countable V}.
Variable format : V → string.

(** [linked ex n]: following predecessors from [n] ends at a [None]. *)
Inductive linked (ex : gmap V (option V)) : V → Prop :=
| linked_root n : ex !! n = Some None → linked ex n
| linked_next n p : ex !! n = Some (Some p) → linked ex p → linked ex n.

Section Run.
Variable G : Graph V.
Variables source target : V.
Variable heuristic : V → V → Z.
Variable weight : string.

(** One iteration of the main loop that goes on to the next one. *)
Definition step (st st' : state V) : Prop :=
  loop_body format G source target heuristic weight 0 st = Continue st'.

Definition reachable (st : state V) : Prop := rtc step (init source) st.

(** [n] iterations of the main loop, none of which leaves it. *)
Fixpoint run_steps (n : nat) (st : state V) : option (state V) :=
  match n with
  | O => Some st
  | S n' =>
      match loop_body format G source target heuristic weight 0 st with
      | Continue st' => run_steps n' st'
      | Finished _ => None
      end
  end.

Definition state_after (n : nat) : state V :=
  default (init source) (run_steps n (init source)).

(** What every frontier entry pushed by an expansion satisfies. *)
Definition pushed_entry (st : state V) (e : QueueEntry V) : Prop :=
  ∃ p, qparent e = Some p
    ∧ is_Some (explored st !! p)
    ∧ has_edge G p (qnode e)
    ∧ is_Some (enqueued st !! qnode e)
    ∧ (qnode e ≠ source → explored st !! qnode e = None)
    ∧ priority e = heuristic (qnode e) target.

(** The state of the search once the first entry has been popped. *)
Record search_inv (st : state V) : Prop := mkInv {
  inv_source : explored st !! source = Some None;
  inv_root : ∀ n, explored st !! n = Some None → n = source;
  inv_parent : ∀ n p, explored st !! n = Some (Some p) →
                 has_edge G p n ∧ is_Some (explored st !! p);
  inv_linked : ∀ n, is_Some (explored st !! n) → linked (explored st) n;
  inv_discovered : ∀ n, is_Some (explored st !! n) →
                     n = source ∨ is_Some (enqueued st !! n);
  inv_queue : Forall (pushed_entry st) (queue st);
  inv_nodup : NoDup (filter (λ n, n ≠ source) (qnode <$> queue st));
  inv_seq : Forall (λ e, (seqno e < c st)%nat) (queue st);
  inv_seq_nodup : NoDup (seqno <$> queue st)
}.

Definition inv (st : state V) : Prop := st = init source ∨ search_inv st.

(** What the [for] loop over [items] does to a state: [new] is the list
    of entries it pushes, in order. *)
Record expansion (curnode : V) (dist : Z)
    (items : list (V * gmap string Z)) (st st' : state V)
    (new : list (QueueEntry V)) : Prop := mkExpansion {
  exp_explored : explored st' = explored st;
  exp_queue : queue st' = queue st ++ new;
  exp_c : c st' = (c st + length new)%nat;
  exp_seq : seqno <$> new = seq (c st) (length new);
  exp_entries :
    Forall (λ e, priority e = heuristic (qnode e) target
               ∧ qparent e = Some curnode
               ∧ enqueued st !! qnode e = None
               ∧ ∃ a, (qnode e, a) ∈ items
                    ∧ qdist e = dist + default 1 (a !! weight)) new;
  exp_nodup : NoDup (qnode <$> new);
  exp_keep : ∀ n r, enqueued st !! n = Some r → enqueued st' !! n = Some r;
  exp_dom : ∀ n, is_Some (enqueued st' !! n) ↔
                 is_Some (enqueued st !! n) ∨ n ∈ qnode <$> new;
  exp_record :
    Forall (λ e, enqueued st' !! qnode e = Some (qdist e, priority e)) new
}.
End Run.

(** [path_from G s n l]: [l] runs from [s] to [n] along edges of [G]. *)
Inductive path_from (G : Graph V) (s : V) : V → list V → Prop :=
| path_from_nil : path_from G s s [s]
| path_from_snoc n m l :
    path_from G s n l → has_edge G n m → path_from G s m (l ++ [m]).

(** The data-structure invariant of a networkx graph: every node has an
    adjacency dictionary, and every neighbour is a node. *)
Definition wf_graph (G : Graph V) : Prop :=
  dom (adj G) = nodes G ∧
  map_Forall (λ _ items, Forall (λ it : V * gmap string Z, it.1 ∈ nodes G) items)
             (adj G).

Definition measure (G : Graph V) (st : state V) : nat :=
  size (nodes G ∖ dom (enqueued st)) + length (queue st).

(** Every frontier entry holds a node of the graph. *)
Definition in_graph (G : Graph V) (st : state V) : Prop :=
  Forall (λ e, qnode e ∈ nodes G) (queue st).

Definition mentions (msg x : string) : Prop :=
  ∃ pre post, msg = pre +:+ x +:+ post.

(** The reading of "identifies exactly the missing node(s)": of source and
    target, the message mentions those absent from the graph and no other. *)
Definition names_exactly_missing (G : Graph V) (source target : V)
    (msg : string) : Prop :=
  ∀ x, x = source ∨ x = target →
    (mentions msg (format x) ↔ x ∉ nodes G).
End Predicates.

(** ** Concrete graphs used in examples *)

Definition edge_w (v : string) (w : Z) : string * gmap string Z :=
  (v, {[ "weight" := w ]}).

Definition diamond : Graph string :=
  mkGraph false {[ "A"; "B"; "C"; "D" ]}
    (list_to_map
       [("A", [edge_w "B" 1; edge_w "C" 5]);
        ("B", [edge_w "A" 1; edge_w "D" 1]);
        ("C", [edge_w "A" 5; edge_w "D" 1]);
        ("D", [edge_w "B" 1; edge_w "C" 1])]).

Definition two_nodes : Graph string :=
  mkGraph false {[ "A"; "B" ]} (list_to_map [("A", []); ("B", [])]).

Definition only_B : Graph string :=
  mkGraph false {[ "B" ]} (list_to_map [("B", [])]).

(** A and B joined in both directions, C apart. *)
Definition back_edge : Graph string :=
  mkGraph false {[ "A"; "B"; "C" ]}
    (list_to_map
       [("A", [edge_w "B" 1]); ("B", [edge_w "A" 1]); ("C", [])]).

Definition multi : Graph string :=
  mkGraph true {[ "A"; "B" ]} (list_to_map [("A", []); ("B", [])]).

(** ** Further predicates *)

(** A frontier entry without its accumulated distance. *)
Definition forget_dist {V : Type} (e : QueueEntry V)
  : Z * nat * V * option V :=
  (priority e, seqno e, qnode e, qparent e).

(** Two states that differ in accumulated distances at most. *)
Definition same_search {V : Type} `{Countable V} (st st' : state V) : Prop :=
  forget_dist <$> queue st = forget_dist <$> queue st'
  ∧ c st = c st'
  ∧ (snd <$> enqueued st : gmap V Z) = snd <$> enqueued st'
  ∧ explored st = explored st'.

Section MorePredicates.
Context {V : Type} `{Countable V}.

(** [depth ex n k]: [k] predecessor links lead from [n] to a [None] entry. *)
Inductive depth (ex : gmap V (option V)) : V → nat → Prop :=
| depth_root n : ex !! n = Some None → depth ex n 0
| depth_next n p k :
    ex !! n = Some (Some p) → depth ex p k → depth ex n (S k).

(** What the search has covered: the target is not recorded, the
    neighbours of a recorded node are all discovered, and a discovered node
    is still in the frontier or already recorded. *)
Record sweep_inv (G : Graph V) (source target : V) (st : state V)
    : Prop := mkSweep {
  sweep_target : explored st !! target = None;
  sweep_closed : ∀ n v, is_Some (explored st !! n) → has_edge G n v →
                   is_Some (enqueued st !! v);
  sweep_pending : ∀ n, is_Some (enqueued st !! n) →
                    n ∈ qnode <$> queue st ∨ is_Some (explored st !! n);
  sweep_source : source ∈ qnode <$> queue st
                 ∨ is_Some (explored st !! source)
}.

(** [wpath G weight s n l d]: [l] runs from [s] to [n] along edges of [G]
    whose weights (1 where the attribute is absent) add up to [d]. *)
Inductive wpath (G : Graph V) (weight : string) (s : V)
    : V → list V → Z → Prop :=
| wpath_nil : wpath G weight s s [s] 0
| wpath_snoc n m l d items a :
    wpath G weight s n l d → getitem G n = Some items → (m, a) ∈ items →
    wpath G weight s m (l ++ [m]) (d + default 1 (a !! weight)).

(** What the frontier and [enqueued] hold: distances of real paths, and the
    heuristic of the node. *)
Record ledger_inv (G : Graph V) (source target : V)
    (heuristic : V → V → Z) (weight : string) (st : state V)
    : Prop := mkLedger {
  ledger_queue :
    Forall (λ e, ∃ l, wpath G weight source (qnode e) l (qdist e)) (queue st);
  ledger_enqueued : ∀ n d hv, enqueued st !! n = Some (d, hv) →
    hv = heuristic n target ∧ ∃ l, wpath G weight source n l d
}.

Definition explored_in_graph (G : Graph V) (st : state V) : Prop :=
  ∀ n, is_Some (explored st !! n) → n ∈ nodes G.
End MorePredicates.

(** A graph whose node B has no adjacency dictionary. *)
Definition dangling : Graph string :=
  mkGraph false {[ "A"; "B"; "C" ]} (list_to_map [("A", [edge_w "B" 1])]).

Section BfsPredicates.
Context {V : Type} `{Countable V}.


End BfsPredicates.

(** What the counter and the ledger of discoveries have in common. *)
Definition counted {V : Type} `{Countable V} (G : Graph V) (st : state V)
  : Prop :=
  c st = S (size (enqueued st)) ∧ dom (enqueued st) ⊆ nodes G.

(** ** Running the model *)

Example diamond_run :
  greedy_path id 10 diamond "A" "D" None "weight" = Return ["A"; "B"; "D"].
Proof. vm_compute. reflexivity. Qed.

(** ** The priority queue *)

Section HeapFacts.
Context {V : Type}.
Implicit Types (e m : QueueEntry V) (q r : list (QueueEntry V)).

Lemma pop_least_perm q : ∀ e m r, pop_least e q = (m, r) → e :: q ≡ₚ m :: r.
Proof.
  induction q as [|x q IH]; intros e m r Hp; simpl in Hp.
  - by inversion Hp.
  - destruct (pop_least x q) as [m' r'] eqn:Hx.
    specialize (IH _ _ _ Hx).
    destruct (entry_le e m'); inversion Hp; subst; [done|].
    rewrite IH. apply Permutation_swap.
Qed.

Lemma heappop_perm q m r : heappop q = Some (m, r) → q ≡ₚ m :: r.
Proof.
  destruct q as [|e q]; simpl; [done|].
  intros [= Hp]. by apply pop_least_perm.
Qed.

Lemma heappop_None q : heappop q = None ↔ q = [].
Proof. destruct q; simpl; split; done. Qed.

Lemma heappop_length q m r : heappop q = Some (m, r) → length q = S (length r).
Proof. intros Hp. by rewrite (heappop_perm _ _ _ Hp). Qed.

Lemma entry_le_total e m : entry_le e m = false → entry_le m e = true.
Proof.
  unfold entry_le. intros Hf.
  apply orb_false_iff in Hf as [Hlt Hr].
  apply Z.ltb_ge in Hlt.
  destruct (priority e =? priority m) eqn:He; simpl in Hr.
  - apply Z.eqb_eq in He. apply Nat.leb_gt in Hr.
    apply orb_true_iff; right. apply andb_true_iff; split.
    + apply Z.eqb_eq. lia.
    + apply Nat.leb_le. lia.
  - apply Z.eqb_neq in He. apply orb_true_iff; left. apply Z.ltb_lt. lia.
Qed.

Lemma entry_le_trans e m x :
  entry_le e m = true → entry_le m x = true → entry_le e x = true.
Proof.
  unfold entry_le. intros H1 H2.
  apply orb_true_iff in H1. apply orb_true_iff in H2. apply orb_true_iff.
  destruct H1 as [H1|H1], H2 as [H2|H2];
    repeat match goal with
           | Hx : (_ && _) = true |- _ => apply andb_true_iff in Hx as [? ?]
           | Hx : (_ <? _) = true |- _ => apply Z.ltb_lt in Hx
           | Hx : (_ =? _) = true |- _ => apply Z.eqb_eq in Hx
           | Hx : (_ <=? _)%nat = true |- _ => apply Nat.leb_le in Hx
           end.
  - left. apply Z.ltb_lt. lia.
  - left. apply Z.ltb_lt. lia.
  - left. apply Z.ltb_lt. lia.
  - right. apply andb_true_iff; split;
      [apply Z.eqb_eq | apply Nat.leb_le]; lia.
Qed.

Lemma entry_le_refl e : entry_le e e = true.
Proof.
  unfold entry_le. apply orb_true_iff; right.
  apply andb_true_iff; split; [apply Z.eqb_eq | apply Nat.leb_le]; lia.
Qed.

(** [heappop] returns an entry that is least in (priority, sequence). *)
Lemma pop_least_min q : ∀ e m r,
  pop_least e q = (m, r) → Forall (λ x, entry_le m x = true) (e :: q).
Proof.
  induction q as [|x q IH]; intros e m r Hp; simpl in Hp.
  - inversion Hp; subst. constructor; [apply entry_le_refl | constructor].
  - destruct (pop_least x q) as [m' r'] eqn:Hx.
    specialize (IH _ _ _ Hx).
    destruct (entry_le e m') eqn:Hle; inversion Hp; subst.
    + constructor; [apply entry_le_refl|].
      eapply Forall_impl; [exact IH|].
      intros y Hy. simpl in Hy. by eapply entry_le_trans.
    + constructor; [by apply entry_le_total | done].
Qed.

Lemma heappop_min q m r :
  heappop q = Some (m, r) → Forall (λ x, entry_le m x = true) q.
Proof.
  destruct q as [|e q]; simpl; [done|].
  intros [= Hp]. by eapply pop_least_min.
Qed.

Lemma filter_none (P : QueueEntry V → Prop) `{∀ x, Decision (P x)} q :
  Forall (λ x, ¬ P x) q → filter P q = [].
Proof.
  induction 1 as [|x q Hx _ IH]; [done|].
  by rewrite filter_cons_False.
Qed.
End HeapFacts.

(** ** The neighbour expansion *)

Section ExpandFacts.
Context {V : Type} `{Countable V}.
Variables target : V.
Variable heuristic : V → V → Z.
Variable weight : string.

Local Abbreviation visit := (visit target heuristic weight).
Local Abbreviation expand := (expand target heuristic weight).
Local Abbreviation expansion := (expansion target heuristic weight).

Lemma visit_old cur dist (st : state V) n a r :
  enqueued st !! n = Some r → visit cur dist st (n, a) = st.
Proof. unfold visit. intros ->. by destruct r. Qed.

Lemma visit_new cur dist (st : state V) n a :
  enqueued st !! n = None →
  visit cur dist st (n, a) =
    mkState (queue st ++
               [mkEntry (heuristic n target) (c st) n
                  (dist + default 1 (a !! weight)) (Some cur)])
            (S (c st))
            (<[n := (dist + default 1 (a !! weight), heuristic n target)]>
               (enqueued st))
            (explored st).
Proof. unfold visit, heappush. by intros ->. Qed.

Lemma expand_snoc cur dist items x (st : state V) :
  expand cur dist (items ++ [x]) st = visit cur dist (expand cur dist items st) x.
Proof. unfold expand. by rewrite foldl_app. Qed.

Lemma expand_nil cur dist (st : state V) : expand cur dist [] st = st.
Proof. reflexivity. Qed.

Lemma expand_spec cur dist items (st : state V) :
  ∃ new, expansion cur dist items st (expand cur dist items st) new.
Proof.
  induction items as [|[n a] items IH] using rev_ind.
  - exists []. rewrite expand_nil.
    split; simpl; rewrite ?app_nil_r; try done.
    + constructor.
    + intros n. rewrite elem_of_nil. tauto.
  - destruct IH as [new IH]. rewrite expand_snoc.
    set (st1 := expand cur dist items st) in *.
    destruct (enqueued st1 !! n) as [r|] eqn:Hn.
    + rewrite (visit_old _ _ _ _ _ _ Hn). exists new.
      destruct IH. split; try done.
      eapply Forall_impl; [exact exp_entries0|].
      intros e (?&?&?&b&?&?). repeat split; try done.
      exists b. split; [|done]. apply elem_of_app. by left.
    + rewrite (visit_new _ _ _ _ _ Hn).
      set (e := mkEntry _ _ _ _ _).
      assert (Hfresh : enqueued st !! n = None ∧ n ∉ qnode <$> new).
      { destruct IH. specialize (exp_dom0 n).
        rewrite Hn in exp_dom0.
        split.
        - apply eq_None_not_Some. intros Hs.
          by destruct (proj2 exp_dom0 (or_introl Hs)) as [? [=]].
        - intros Hin.
          by destruct (proj2 exp_dom0 (or_intror Hin)) as [? [=]]. }
      destruct Hfresh as [Hst Hnew].
      exists (new ++ [e]). destruct IH. split; simpl.
      * done.
      * rewrite exp_queue0. by rewrite app_assoc.
      * rewrite exp_c0, length_app. simpl. lia.
      * rewrite fmap_app, length_app, seq_app, exp_seq0. simpl.
        by rewrite exp_c0.
      * apply Forall_app. split.
        -- eapply Forall_impl; [exact exp_entries0|].
           intros e' (?&?&?&b&?&?). repeat split; try done.
           exists b. split; [|done]. apply elem_of_app. by left.
        -- constructor; [|constructor]. simpl. repeat split; try done.
           exists a. split; [|done]. apply elem_of_app. right.
           apply list_elem_of_singleton. done.
      * rewrite fmap_app. apply NoDup_app. repeat split; try done.
        -- intros x Hx Hx'. simpl in Hx'.
           apply list_elem_of_singleton in Hx'. by subst.
        -- simpl. apply NoDup_singleton.
      * intros m r Hm. destruct (decide (n = m)) as [->|Hne].
        -- congruence.
        -- rewrite lookup_insert_ne by done. by apply exp_keep0.
      * intros m. rewrite fmap_app, elem_of_app. simpl.
        rewrite list_elem_of_singleton.
        destruct (decide (n = m)) as [->|Hne].
        -- rewrite lookup_insert_eq. split; [by auto | by eauto].
        -- rewrite lookup_insert_ne by done. rewrite exp_dom0.
           split; [intros [?|?]; auto | intros [?|[?|?]]; auto].
           congruence.
      * apply Forall_app. split.
        -- rewrite Forall_forall in exp_record0 |- *.
           intros e' He'. simpl. rewrite lookup_insert_ne; [by apply exp_record0|].
           intros Heq. apply Hnew. apply list_elem_of_fmap. by exists e'.
        -- constructor; [|constructor]. simpl. by rewrite lookup_insert_eq.
Qed.
End ExpandFacts.

(** ** The main loop *)

Section LoopFacts.
Context {V : Type} `{Countable V}.
Variable format : V → string.
Variable G : Graph V.
Variables source target : V.
Variable heuristic : V → V → Z.
Variable weight : string.

Local Abbreviation loop_body := (loop_body format G source target heuristic weight).
Local Abbreviation greedy_loop := (greedy_loop format G source target heuristic weight).
Local Abbreviation expand := (expand target heuristic weight).
Local Abbreviation step := (step format G source target heuristic weight).
Local Abbreviation reachable := (reachable format G source target heuristic weight).
Local Abbreviation search_inv := (search_inv G source target heuristic).
Local Abbreviation inv := (inv G source target heuristic).
Local Abbreviation pushed_entry := (pushed_entry G source target heuristic).

Lemma loop_body_Continue wfuel (st st' : state V) :
  loop_body wfuel st = Continue st' →
  ∃ e q, heappop (queue st) = Some (e, q) ∧ qnode e ≠ target ∧
    ((explored st !! qnode e = Some None ∧
      st' = mkState q (c st) (enqueued st) (explored st))
     ∨ (explored st !! qnode e ≠ Some None ∧
        ∃ items, getitem G (qnode e) = Some items ∧
          st' = expand (qnode e) (qdist e) items
                  (mkState q (c st) (enqueued st)
                     (<[qnode e := qparent e]> (explored st))))).
Proof.
  unfold loop_body.
  destruct (heappop (queue st)) as [[e q]|]; [|done].
  destruct (decide (qnode e = target)); [done|].
  destruct (decide (explored st !! qnode e = Some None)).
  - intros [= <-]. exists e, q. auto.
  - destruct (getitem G (qnode e)) as [items|] eqn:Hg; [|done].
    intros [= <-]. exists e, q. repeat split; try done.
    right. eauto.
Qed.

Lemma loop_body_Finished wfuel (st : state V) o :
  loop_body wfuel st = Finished o →
  (queue st = [] ∧ o = Raise (NetworkXNoPath (no_path_msg format source target)))
  ∨ ∃ e q, heappop (queue st) = Some (e, q) ∧
      ((qnode e = target ∧ o = walk wfuel (explored st) (qparent e) [qnode e])
       ∨ (qnode e ≠ target ∧ explored st !! qnode e ≠ Some None ∧
          getitem G (qnode e) = None ∧ o = Raise (KeyError (qnode e)))).
Proof.
  unfold loop_body.
  destruct (heappop (queue st)) as [[e q]|] eqn:Hp.
  - destruct (decide (qnode e = target)).
    + intros [= <-]. right. exists e, q. auto.
    + destruct (decide (explored st !! qnode e = Some None)); [done|].
      destruct (getitem G (qnode e)) as [items|] eqn:Hg; [done|].
      intros [= <-]. right. exists e, q. split; [done|]. right. auto.
  - intros [= <-]. left. split; [|done]. by apply heappop_None.
Qed.

(** Whether the loop goes on does not depend on the fuel of the walk. *)
Lemma loop_body_Continue_fuel wfuel wfuel' (st st' : state V) :
  loop_body wfuel st = Continue st' → loop_body wfuel' st = Continue st'.
Proof.
  unfold loop_body.
  destruct (heappop (queue st)) as [[e q]|]; [|done].
  destruct (decide (qnode e = target)); [done|]. done.
Qed.

Lemma greedy_loop_inv (P : state V → Prop) wfuel fuel :
  ∀ st o,
    P st → (∀ st1 st2, P st1 → step st1 st2 → P st2) →
    greedy_loop wfuel fuel st = o → o ≠ OutOfFuel →
    ∃ st', P st' ∧ rtc step st st' ∧ loop_body wfuel st' = Finished o.
Proof.
  induction fuel as [|fuel IH]; intros st o HP Hstep Hrun Hof; simpl in Hrun.
  - congruence.
  - destruct (loop_body wfuel st) as [st1|o1] eqn:Hb.
    + assert (Hs : step st st1) by (by eapply loop_body_Continue_fuel).
      destruct (IH st1 o) as (st' & HP' & Hrtc & Hfin); eauto.
      exists st'. split; [done|]. split; [|done].
      by eapply rtc_l.
    + subst o1. exists st. eauto using rtc_refl.
Qed.

(** *** The invariant of the search *)

Lemma linked_insert (ex : gmap V (option V)) n x m :
  ex !! n = None → linked ex m → linked (<[n := x]> ex) m.
Proof.
  intros Hn Hl. induction Hl as [m Hm | m p Hm _ IH].
  - apply linked_root. rewrite lookup_insert_ne; [done | congruence].
  - eapply linked_next; [|exact IH].
    rewrite lookup_insert_ne; [done | congruence].
Qed.

Lemma search_inv_expand (st : state V) cur dist items :
  search_inv st → is_Some (explored st !! cur) → getitem G cur = Some items →
  search_inv (expand cur dist items st).
Proof.
  intros Hi Hcur Hg.
  destruct (expand_spec target heuristic weight cur dist items st) as [new Hx].
  destruct Hx, Hi. split.
  - by rewrite exp_explored0.
  - by rewrite exp_explored0.
  - by rewrite exp_explored0.
  - by rewrite exp_explored0.
  - intros n Hn. rewrite exp_explored0 in Hn.
    destruct (inv_discovered0 n Hn) as [?|[r Hr]]; [by left|right].
    exists r. by apply exp_keep0.
  - rewrite exp_queue0. apply Forall_app; split.
    + eapply Forall_impl; [exact inv_queue0|].
      intros e (p & ? & ? & ? & [r Hr] & ? & ?). exists p.
      rewrite exp_explored0. repeat split; eauto.
    + rewrite Forall_forall in exp_entries0, exp_record0 |- *.
      intros e He.
      destruct (exp_entries0 e He) as (Hp & Hpar & Hnone & a & Ha & Hd).
      exists cur. rewrite exp_explored0.
      split; [done|]. split; [done|]. split; [by exists items, a|].
      split; [rewrite (exp_record0 e He); eauto|]. split; [|done].
      intros Hns. destruct (explored st !! qnode e) eqn:Hex; [|done].
      destruct (inv_discovered0 (qnode e)) as [?|[? ?]];
        [eauto | done | congruence].
  - rewrite exp_queue0, fmap_app, filter_app. apply NoDup_app.
    split; [done|]. split; [|by apply NoDup_filter].
    intros x Hx Hx'.
    apply list_elem_of_filter in Hx as [Hxs Hx].
    apply list_elem_of_filter in Hx' as [_ Hx'].
    apply list_elem_of_fmap in Hx as (e & -> & He).
    apply list_elem_of_fmap in Hx' as (e' & Heq & He').
    rewrite Forall_forall in inv_queue0.
    destruct (inv_queue0 e He) as (p & _ & _ & _ & [r Hr] & _).
    rewrite Forall_forall in exp_entries0.
    destruct (exp_entries0 e' He') as (_ & _ & Hnone & _).
    rewrite <- Heq in Hnone. congruence.
  - rewrite exp_queue0, exp_c0. apply Forall_app; split.
    + eapply Forall_impl; [exact inv_seq0|]. simpl. intros; lia.
    + rewrite Forall_forall. intros e He.
      assert (Hin : seqno e ∈ seqno <$> new)
        by (apply list_elem_of_fmap; eauto).
      rewrite exp_seq0 in Hin. apply elem_of_seq in Hin. lia.
  - rewrite exp_queue0, fmap_app. apply NoDup_app.
    split; [done|]. split; [|rewrite exp_seq0; apply NoDup_seq].
    intros x Hx Hx'. rewrite exp_seq0 in Hx'. apply elem_of_seq in Hx'.
    apply list_elem_of_fmap in Hx as (e & -> & He).
    rewrite Forall_forall in inv_seq0. specialize (inv_seq0 e He). lia.
Qed.

Lemma search_inv_first :
  search_inv (mkState [] (c (init source)) (enqueued (init source))
                (<[source := None]> (explored (init source)))).
Proof.
  simpl. split; simpl.
  - by rewrite lookup_insert_eq.
  - intros n. rewrite lookup_insert. case_decide; [done|].
    by rewrite lookup_empty.
  - intros n p. rewrite lookup_insert. case_decide; [done|].
    by rewrite lookup_empty.
  - intros n. rewrite lookup_insert. case_decide as Hn.
    + intros _. subst n. apply linked_root. by rewrite lookup_insert_eq.
    + rewrite lookup_empty. by intros [? ?].
  - intros n. rewrite lookup_insert. case_decide as Hn; [by left|].
    rewrite lookup_empty. by intros [? ?].
  - constructor.
  - constructor.
  - constructor.
  - constructor.
Qed.

Lemma search_inv_skip (st : state V) e q :
  search_inv st → heappop (queue st) = Some (e, q) →
  search_inv (mkState q (c st) (enqueued st) (explored st)).
Proof.
  intros Hi Hp. apply heappop_perm in Hp. destruct Hi.
  rewrite Hp in inv_queue0, inv_nodup0, inv_seq0, inv_seq_nodup0.
  split; simpl; try done.
  - apply Forall_cons in inv_queue0 as [_ Hq].
    eapply Forall_impl; [exact Hq|]. intros e' (p & ?). by exists p.
  - rewrite fmap_cons, filter_cons in inv_nodup0.
    case_decide; [by apply NoDup_cons in inv_nodup0 as [_ ?] | done].
  - by apply Forall_cons in inv_seq0 as [_ ?].
  - rewrite fmap_cons in inv_seq_nodup0.
    by apply NoDup_cons in inv_seq_nodup0 as [_ ?].
Qed.

Lemma search_inv_pop (st : state V) e q :
  search_inv st → heappop (queue st) = Some (e, q) →
  explored st !! qnode e ≠ Some None →
  search_inv (mkState q (c st) (enqueued st)
                (<[qnode e := qparent e]> (explored st)))
  ∧ explored st !! qnode e = None ∧ qnode e ≠ source
  ∧ ∃ p, qparent e = Some p ∧ is_Some (explored st !! p).
Proof.
  intros Hi Hp Hskip. apply heappop_perm in Hp. destruct Hi.
  rewrite Hp in inv_queue0, inv_nodup0, inv_seq0, inv_seq_nodup0.
  apply Forall_cons in inv_queue0 as [He Hq].
  destruct He as (p & Hpar & Hpex & Hedge & Henq & Hfresh & Hprio).
  assert (Hns : qnode e ≠ source) by congruence.
  specialize (Hfresh Hns).
  rewrite fmap_cons, filter_cons in inv_nodup0.
  rewrite decide_True in inv_nodup0 by done.
  apply NoDup_cons in inv_nodup0 as [Hnotin Hnd].
  assert (Hmono : ∀ m, is_Some (explored st !! m) →
            is_Some (<[qnode e := qparent e]> (explored st) !! m)).
  { intros m Hm. rewrite lookup_insert. by case_decide. }
  split; [|by eauto 6].
  rewrite Hpar in *. split; simpl.
  - by rewrite lookup_insert_ne.
  - intros m. rewrite lookup_insert. case_decide; [done|]. apply inv_root0.
  - intros m p'. rewrite lookup_insert. case_decide as Hm.
    + intros [= <-]. subst m. split; [done|]. by apply Hmono.
    + intros Hm'. destruct (inv_parent0 m p' Hm') as [? ?].
      split; [done|]. by apply Hmono.
  - intros m Hm. destruct (decide (qnode e = m)) as [<-|Hne].
    + eapply linked_next; [by rewrite lookup_insert_eq|].
      apply linked_insert; [done|]. by apply inv_linked0.
    + rewrite lookup_insert_ne in Hm by done.
      apply linked_insert; [done|]. by apply inv_linked0.
  - intros m. rewrite lookup_insert. case_decide as Hm.
    + intros _. subst m. by right.
    + apply inv_discovered0.
  - rewrite Forall_forall in Hq |- *. intros e' He'.
    destruct (Hq e' He') as (p' & ? & ? & ? & ? & Hf' & ?).
    exists p'. simpl. repeat split; try done; [by apply Hmono|].
    intros Hne'. rewrite lookup_insert_ne; [by apply Hf'|].
    intros Heq. apply Hnotin. apply list_elem_of_filter. split; [congruence|].
    rewrite Heq. by apply list_elem_of_fmap_2.
  - done.
  - by apply Forall_cons in inv_seq0 as [_ ?].
  - rewrite fmap_cons in inv_seq_nodup0.
    by apply NoDup_cons in inv_seq_nodup0 as [_ ?].
Qed.

Lemma inv_step (st st' : state V) : inv st → step st st' → search_inv st'.
Proof.
  intros Hi Hs. apply loop_body_Continue in Hs as (e & q & Hp & Hnt & Hcase).
  destruct Hi as [-> | Hi].
  - simpl in Hp. injection Hp as <- <-. simpl in Hcase.
    destruct Hcase as [[Hex _] | (_ & items & Hg & ->)].
    + by rewrite lookup_empty in Hex.
    + apply search_inv_expand; [apply search_inv_first | | done].
      simpl. by rewrite lookup_insert_eq.
  - destruct Hcase as [[Hex ->] | (Hex & items & Hg & ->)].
    + by eapply search_inv_skip.
    + destruct (search_inv_pop st e q Hi Hp Hex) as (Hi' & _).
      apply search_inv_expand; [done | | done].
      simpl. by rewrite lookup_insert_eq.
Qed.

Lemma inv_rtc (st st' : state V) : inv st → rtc step st st' → inv st'.
Proof.
  intros Hi Hr. induction Hr as [|st st1 st2 Hs _ IH]; [done|].
  apply IH. right. by eapply inv_step.
Qed.

Lemma inv_reachable (st : state V) : reachable st → inv st.
Proof. apply inv_rtc. by left. Qed.

(** *** Path reconstruction *)

Lemma walk_path (ex : gmap V (option V)) :
  (∀ n, ex !! n = Some None → n = source) →
  (∀ n p, ex !! n = Some (Some p) → has_edge G p n) →
  ∀ fuel n acc res,
    walk fuel ex (Some n) acc = Return res →
    ∃ l, path_from G source n l ∧ res = l ++ reverse acc.
Proof.
  intros Hroot Hedge. induction fuel as [|fuel IH]; intros n acc res Hw.
  - done.
  - simpl in Hw. destruct (ex !! n) as [[p|]|] eqn:Hn; [| |done].
    + destruct (IH _ _ _ Hw) as (l & Hl & ->).
      exists (l ++ [n]). split.
      * eapply path_from_snoc; eauto.
      * rewrite reverse_app. simpl. by rewrite <- app_assoc.
    + destruct fuel; simpl in Hw; injection Hw as <-;
        rewrite (Hroot n Hn); exists [source];
        (split; [constructor | by rewrite reverse_app]).
Qed.

Lemma walk_linked (ex : gmap V (option V)) n :
  linked ex n →
  ∃ k, ∀ acc, ∃ res, ∀ fuel, (k ≤ fuel)%nat →
    walk fuel ex (Some n) acc = Return res.
Proof.
  induction 1 as [n Hn | n p Hn _ [k IH]].
  - exists 1%nat. intros acc. exists (reverse (acc ++ [n])).
    intros [|fuel] Hk; [lia|]. simpl. rewrite Hn. by destruct fuel.
  - exists (S k). intros acc. destruct (IH (acc ++ [n])) as [res Hres].
    exists res. intros [|fuel] Hk; [lia|]. simpl. rewrite Hn.
    apply Hres. lia.
Qed.

Lemma path_from_spec s n l :
  path_from G s n l →
  head l = Some s ∧ last l = Some n ∧
  ∀ i u v, l !! i = Some u → l !! S i = Some v → has_edge G u v.
Proof.
  induction 1 as [|n m l Hl (Hh & Hlast & Hedges) He].
  - repeat split; try done; intros i u v _ Hv; by destruct i.
  - split; [|split].
    + destruct l; [done|]. done.
    + apply last_snoc.
    + intros i u v Hu Hv.
      destruct (decide (S i < length l)%nat) as [Hlt|Hge].
      * rewrite lookup_app_l in Hu by lia.
        rewrite lookup_app_l in Hv by lia. eauto.
      * assert (Hi : S i = length l).
        { apply lookup_lt_Some in Hv. rewrite length_app in Hv.
          simpl in Hv. lia. }
        rewrite lookup_app_l in Hu by lia.
        rewrite lookup_app_r in Hv by lia.
        rewrite Hi, Nat.sub_diag in Hv. injection Hv as <-.
        rewrite last_lookup in Hlast.
        replace (pred (length l)) with i in Hlast by lia.
        congruence.
Qed.

(** The target entry popped in a state of the search yields a path. *)
Lemma target_pop_path wfuel (st : state V) e q path :
  inv st → heappop (queue st) = Some (e, q) → qnode e = target →
  walk wfuel (explored st) (qparent e) [qnode e] = Return path →
  path_from G source target path.
Proof.
  intros Hi Hp Ht Hw. destruct Hi as [-> | Hi].
  - simpl in Hp. injection Hp as <- <-. simpl in *.
    destruct wfuel; simpl in Hw; injection Hw as <-; subst; constructor.
  - pose proof (heappop_perm _ _ _ Hp) as Hperm. destruct Hi.
    rewrite Hperm in inv_queue0. apply Forall_cons in inv_queue0 as [He _].
    destruct He as (p & Hpar & _ & Hedge & _).
    rewrite Hpar in Hw.
    apply walk_path in Hw as (l & Hl & ->);
      [| done | intros n p' Hn; by apply inv_parent0].
    rewrite Ht in *. simpl. by eapply path_from_snoc.
Qed.

(** *** Termination *)

Lemma visit_measure cur dist (st : state V) it :
  it.1 ∈ nodes G →
  (measure G (visit target heuristic weight cur dist st it) ≤ measure G st)%nat.
Proof.
  destruct it as [n a]. intros Hn. simpl in Hn.
  destruct (enqueued st !! n) as [r|] eqn:Hq.
  - by rewrite (visit_old _ _ _ _ _ _ _ _ _ Hq).
  - rewrite (visit_new _ _ _ _ _ _ _ _ Hq). unfold measure. simpl.
    rewrite dom_insert_L, length_app. simpl.
    assert (Hin : n ∈ nodes G ∖ dom (enqueued st)).
    { apply elem_of_difference. split; [done|]. by apply not_elem_of_dom. }
    replace (nodes G ∖ ({[n]} ∪ dom (enqueued st)))
      with ((nodes G ∖ dom (enqueued st)) ∖ {[n]}) by set_solver.
    rewrite size_difference by set_solver.
    rewrite size_singleton.
    assert (size (nodes G ∖ dom (enqueued st)) ≠ 0)%nat.
    { intros Hz. apply size_empty_inv in Hz. set_solver. }
    lia.
Qed.

Lemma expand_measure cur dist items :
  Forall (λ it : V * gmap string Z, it.1 ∈ nodes G) items →
  ∀ st : state V,
    (measure G (expand cur dist items st) ≤ measure G st)%nat.
Proof.
  unfold expand.
  induction 1 as [|it items Hit _ IH]; intros st; simpl; [done|].
  etrans; [apply IH|]. by apply visit_measure.
Qed.

Lemma wf_items cur items :
  wf_graph G → getitem G cur = Some items →
  Forall (λ it : V * gmap string Z, it.1 ∈ nodes G) items.
Proof. intros [_ Hwf] Hg. exact (Hwf cur items Hg). Qed.

Lemma step_measure (st st' : state V) :
  wf_graph G → step st st' → (measure G st' < measure G st)%nat.
Proof.
  intros Hwf Hs. apply loop_body_Continue in Hs as (e & q & Hp & _ & Hcase).
  apply heappop_length in Hp.
  destruct Hcase as [[_ ->] | (_ & items & Hg & ->)].
  - unfold measure. simpl. lia.
  - eapply Nat.le_lt_trans; [apply expand_measure; by eapply wf_items|].
    unfold measure. simpl. lia.
Qed.

Lemma step_in_graph (st st' : state V) :
  wf_graph G → in_graph G st → step st st' → in_graph G st'.
Proof.
  intros Hwf Hin Hs.
  apply loop_body_Continue in Hs as (e & q & Hp & _ & Hcase).
  apply heappop_perm in Hp. unfold in_graph in *. rewrite Hp in Hin.
  apply Forall_cons in Hin as [_ Hq].
  destruct Hcase as [[_ ->] | (_ & items & Hg & ->)]; [done|].
  destruct (expand_spec target heuristic weight (qnode e) (qdist e) items
              (mkState q (c st) (enqueued st)
                 (<[qnode e := qparent e]> (explored st)))) as [new Hx].
  destruct Hx. rewrite exp_queue0. simpl. apply Forall_app. split; [done|].
  pose proof (wf_items _ _ Hwf Hg) as Hitems.
  rewrite Forall_forall in Hitems.
  rewrite Forall_forall in exp_entries0 |- *.
  intros e' He'. destruct (exp_entries0 e' He') as (_ & _ & _ & a & Ha & _).
  exact (Hitems _ Ha).
Qed.

Lemma loop_body_target wfuel (st : state V) e q :
  heappop (queue st) = Some (e, q) → qnode e = target →
  loop_body wfuel st = Finished (walk wfuel (explored st) (qparent e) [qnode e]).
Proof.
  intros Hp Ht. unfold loop_body. rewrite Hp.
  by rewrite decide_True.
Qed.

(** The walk from the predecessor of a popped entry ends. *)
Lemma popped_walk_ends (st : state V) e q :
  inv st → heappop (queue st) = Some (e, q) →
  ∃ k res, ∀ wfuel, (k ≤ wfuel)%nat →
    walk wfuel (explored st) (qparent e) [qnode e] = Return res.
Proof.
  intros Hi Hp. destruct Hi as [-> | Hi].
  - simpl in Hp. injection Hp as <- <-. simpl.
    exists 0%nat, [source]. by intros [|?] _.
  - pose proof (heappop_perm _ _ _ Hp) as Hperm. destruct Hi.
    rewrite Hperm in inv_queue0.
    apply Forall_cons in inv_queue0 as [He _].
    destruct He as (p & -> & Hpex & _).
    destruct (walk_linked _ _ (inv_linked0 p Hpex)) as [k Hk].
    destruct (Hk [qnode e]) as [res Hres]. by exists k, res.
Qed.

Lemma loop_terminates :
  wf_graph G →
  ∀ n (st : state V),
    (measure G st ≤ n)%nat → inv st → in_graph G st →
    ∃ N o,
      ((∃ path, o = Return path)
       ∨ o = Raise (NetworkXNoPath (no_path_msg format source target)))
      ∧ ∀ wfuel fuel, (N ≤ wfuel)%nat → (N ≤ fuel)%nat →
          greedy_loop wfuel fuel st = o.
Proof.
  intros Hwf. induction n as [|n IH]; intros st Hm Hi Hin;
    destruct (loop_body 0 st) as [st'|o0] eqn:Hb.
  - apply (step_measure _ _ Hwf) in Hb. lia.
  - (* the loop ends here *)
    apply loop_body_Finished in Hb
      as [[Hq ->] | (e & q & Hp & [[Ht ->] | (_ & _ & Hg & ->)])].
    + exists 1%nat, (Raise (NetworkXNoPath (no_path_msg format source target))).
      split; [by right|]. intros wfuel [|fuel] _ Hf; [lia|]. simpl.
      unfold loop_body. by rewrite Hq.
    + apply heappop_length in Hp. unfold measure in Hm. lia.
    + apply heappop_length in Hp. unfold measure in Hm. lia.
  - assert (Hs : step st st') by done.
    pose proof (step_measure _ _ Hwf Hs).
    destruct (IH st') as (N & o & Hgood & Hrun);
      [lia | right; by eapply inv_step | by eapply step_in_graph |].
    exists (S N), o. split; [done|]. intros wfuel [|fuel] Hw Hf; [lia|].
    simpl. rewrite (loop_body_Continue_fuel _ _ _ _ Hb). apply Hrun; lia.
  - apply loop_body_Finished in Hb
      as [[Hq ->] | (e & q & Hp & [[Ht ->] | (_ & _ & Hg & ->)])].
    + exists 1%nat, (Raise (NetworkXNoPath (no_path_msg format source target))).
      split; [by right|]. intros wfuel [|fuel] _ Hf; [lia|]. simpl.
      unfold loop_body. by rewrite Hq.
    + (* the target is popped: the walk ends *)
      destruct (popped_walk_ends st e q Hi Hp) as (k & res & Hres).
      exists (S k), (Return res). split; [left; by exists res|].
      intros wfuel [|fuel] Hw Hf; [lia|]. simpl.
      rewrite (loop_body_target _ _ _ _ Hp Ht). apply Hres. lia.
    + (* every frontier node has an adjacency dictionary *)
      exfalso. pose proof (heappop_perm _ _ _ Hp) as Hperm.
      unfold in_graph in Hin. rewrite Hperm in Hin.
      apply Forall_cons in Hin as [He _].
      destruct Hwf as [Hdom _]. rewrite <- Hdom in He.
      apply elem_of_dom in He as [? He]. unfold getitem in Hg. congruence.
Qed.

Lemma run_steps_rtc n : ∀ st st' : state V,
  run_steps format G source target heuristic weight n st = Some st' →
  rtc step st st'.
Proof.
  induction n as [|n IH]; intros st st' Hr; simpl in Hr.
  - injection Hr as <-. apply rtc_refl.
  - destruct (loop_body 0 st)
      as [st1|] eqn:Hb; [|done].
    eapply rtc_l; [exact Hb | by apply IH].
Qed.

Lemma state_after_reachable n st :
  run_steps format G source target heuristic weight n (init source) = Some st →
  reachable st.
Proof. apply run_steps_rtc. Qed.

Lemma step_enqueued (st st' : state V) n r :
  step st st' → enqueued st !! n = Some r → enqueued st' !! n = Some r.
Proof.
  intros Hs Hn. apply loop_body_Continue in Hs as (e & q & _ & _ & Hcase).
  destruct Hcase as [[_ ->] | (_ & items & _ & ->)]; [done|].
  destruct (expand_spec target heuristic weight (qnode e) (qdist e) items
              (mkState q (c st) (enqueued st)
                 (<[qnode e := qparent e]> (explored st)))) as [new Hx].
  by apply (exp_keep _ _ _ _ _ _ _ _ _ Hx).
Qed.

Lemma step_explored (st st' : state V) :
  inv st → step st st' →
  explored st ⊆ explored st' ∧
  ∀ n p, explored st !! n = None → explored st' !! n = Some (Some p) →
         is_Some (explored st !! p).
Proof.
  intros Hi Hs. apply loop_body_Continue in Hs as (e & q & Hp & _ & Hcase).
  destruct Hcase as [[_ ->] | (Hex & items & _ & ->)]; [simpl; split; [done|]|].
  { intros n p Hn Hn'. congruence. }
  destruct (expand_spec target heuristic weight (qnode e) (qdist e) items
              (mkState q (c st) (enqueued st)
                 (<[qnode e := qparent e]> (explored st)))) as [new Hx].
  rewrite (exp_explored _ _ _ _ _ _ _ _ _ Hx). simpl.
  destruct Hi as [-> | Hi].
  - simpl in *. injection Hp as <- <-. simpl. split.
    + apply map_empty_subseteq.
    + intros n p _. rewrite lookup_insert. case_decide; [done|].
      by rewrite lookup_empty.
  - destruct (search_inv_pop st e q Hi Hp Hex)
      as (_ & Hfresh & _ & p & Hpar & Hpex).
    split.
    + by apply insert_subseteq.
    + intros n p' Hn. rewrite lookup_insert. case_decide; [|congruence].
      rewrite Hpar. by intros [= <-].
Qed.

Lemma greedy_loop_run_steps n : ∀ (st st' : state V) wfuel fuel,
  run_steps format G source target heuristic weight n st = Some st' →
  greedy_loop wfuel (n + fuel) st = greedy_loop wfuel fuel st'.
Proof.
  induction n as [|n IH]; intros st st' wfuel fuel Hr; simpl in Hr.
  - by injection Hr as <-.
  - destruct (loop_body 0 st)
      as [st1|] eqn:Hb; [|done].
    simpl. rewrite (loop_body_Continue_fuel 0 wfuel _ _ Hb). by apply IH.
Qed.

(** A node found in [explored] when it is popped is the source. *)
Lemma explored_pop_is_source (st : state V) e q :
  reachable st → heappop (queue st) = Some (e, q) →
  is_Some (explored st !! qnode e) →
  qnode e = source ∧ explored st !! qnode e = Some None.
Proof.
  intros Hr Hp Hex. apply inv_reachable in Hr as [-> | Hi].
  - simpl in Hex. rewrite lookup_empty in Hex. by destruct Hex.
  - apply heappop_perm in Hp. destruct Hi.
    rewrite Hp in inv_queue0. apply Forall_cons in inv_queue0 as [He _].
    destruct He as (p & _ & _ & _ & _ & Hfresh & _).
    destruct (decide (qnode e = source)) as [Heq | Hne].
    + by rewrite Heq.
    + rewrite (Hfresh Hne) in Hex. by destruct Hex.
Qed.
End LoopFacts.

(** ** Properties of [greedy_path] *)

Lemma greedy_path_unfold {V : Type} `{Countable V} (format : V → string) 
    fuel (G : Graph V) s t h w :
  is_multigraph G = false → s ∈ nodes G → t ∈ nodes G →
  greedy_path format fuel G s t h w =
    greedy_loop format G s t (default default_heuristic h) w fuel fuel (init s).
Proof.
  intros Hm Hs Ht. unfold greedy_path, not_implemented_for_multigraph.
  rewrite Hm. unfold greedy_path_body, contains.
  by rewrite !bool_decide_eq_true_2.
Qed.

Lemma greedy_path_Return {V : Type} `{Countable V} (format : V → string) 
    fuel (G : Graph V) s t h w path :
  greedy_path format fuel G s t h w = Return path →
  greedy_loop format G s t (default default_heuristic h) w fuel fuel (init s)
    = Return path.
Proof.
  unfold greedy_path, not_implemented_for_multigraph, greedy_path_body.
  destruct (is_multigraph G); [done|].
  by destruct (negb (contains G s) || negb (contains G t)).
Qed.

(** C1. A path returned by [greedy_path] starts at the source, ends at the
    target, and each two consecutive nodes of it are joined by an edge of
    the graph, directed from the first to the second. *)
Theorem greedy_path_follows_edges {V : Type} `{Countable V} (format : V → string) 
    fuel (G : Graph V) s t h w path :
  greedy_path format fuel G s t h w = Return path →
  head path = Some s ∧ last path = Some t ∧
  ∀ i u v, path !! i = Some u → path !! S i = Some v → has_edge G u v.
Proof.
  intros Hrun. apply greedy_path_Return in Hrun.
  set (hf := default default_heuristic h) in *.
  destruct (greedy_loop_inv format G s t hf w (inv G s t hf) fuel fuel
              (init s) (Return path)) as (st & Hi & _ & Hfin);
    [by left | intros st1 st2 Hi1 Hs; right; by eapply inv_step
     | done | done |].
  apply path_from_spec.
  apply loop_body_Finished in Hfin
    as [[_ ?] | (e & q & Hp & [[Ht Hw] | (_ & _ & _ & ?)])]; [done| |done].
  symmetry in Hw. by eapply target_pop_path.
Qed.

Lemma greedy_path_follows_edges_witness :
  head ["A"; "B"; "D"] = Some "A" ∧ last ["A"; "B"; "D"] = Some "D" ∧
  ∀ i u v, ["A"; "B"; "D"] !! i = Some u → ["A"; "B"; "D"] !! S i = Some v →
    has_edge diamond u v.
Proof.
  apply (greedy_path_follows_edges id 10 diamond "A" "D" None "weight").
  vm_compute. reflexivity.
Defined.

(** C2 as stated fails: with the source absent and the target present, the
    message of the error still mentions the target. *)
Lemma node_not_found_names_present_node :
  ¬ ∃ msg,
      greedy_path id 0 only_B "A" "B" None "weight" = Raise (NodeNotFound msg)
      ∧ names_exactly_missing id only_B "A" "B" msg.
Proof.
  intros (msg & Hrun & Hnames). vm_compute in Hrun. injection Hrun as <-.
  destruct (Hnames "B") as [Hm _]; [by right|].
  apply Hm.
  - exists "Either source A or target ", " is not in G". reflexivity.
  - simpl. by apply elem_of_singleton.
Qed.

Lemma append_assoc (a b d : string) : (a +:+ b) +:+ d = a +:+ (b +:+ d).
Proof.
  induction a as [|x a IH]; [done|].
  change (String x ((a +:+ b) +:+ d) = String x (a +:+ (b +:+ d))).
  by rewrite IH.
Qed.

Lemma append_empty_r (a : string) : a +:+ EmptyString = a.
Proof.
  induction a as [|x a IH]; [done|].
  change (String x (a +:+ EmptyString) = String x a). by rewrite IH.
Qed.

(** C2, amended. When the source or the target is not in the graph, the
    body of [greedy_path] raises [NodeNotFound] whatever the fuel (so before
    the frontier and the ledgers exist), and so does the decorated function
    on a graph that is not a multigraph; the message is built from both the
    source and the target, whichever of them is absent. *)
Theorem node_not_found_first {V : Type} `{Countable V} (format : V → string) 
    fuel (G : Graph V) s t h w :
  s ∉ nodes G ∨ t ∉ nodes G →
  greedy_path_body format fuel G s t h w
    = Raise (NodeNotFound (node_not_found_msg format s t))
  ∧ (is_multigraph G = false →
     greedy_path format fuel G s t h w
       = Raise (NodeNotFound (node_not_found_msg format s t)))
  ∧ mentions (node_not_found_msg format s t) (format s)
  ∧ mentions (node_not_found_msg format s t) (format t).
Proof.
  intros Habs.
  assert (Hbody : greedy_path_body format fuel G s t h w
            = Raise (NodeNotFound (node_not_found_msg format s t))).
  { unfold greedy_path_body, contains.
    destruct Habs as [Hs | Ht].
    - by rewrite (bool_decide_eq_false_2 _ Hs).
    - rewrite (bool_decide_eq_false_2 _ Ht). simpl. by rewrite orb_true_r. }
  split; [done|]. split; [|split].
  - intros Hm. unfold greedy_path, not_implemented_for_multigraph.
    by rewrite Hm.
  - by exists "Either source ",
             (" or target " +:+ format t +:+ " is not in G").
  - exists ("Either source " +:+ format s +:+ " or target "),
           " is not in G".
    unfold node_not_found_msg. by rewrite !append_assoc.
Qed.

Lemma node_not_found_first_witness :
  greedy_path_body id 0 only_B "A" "B" None "weight"
    = Raise (NodeNotFound "Either source A or target B is not in G")
  ∧ (is_multigraph only_B = false →
     greedy_path id 0 only_B "A" "B" None "weight"
       = Raise (NodeNotFound "Either source A or target B is not in G"))
  ∧ mentions "Either source A or target B is not in G" "A"
  ∧ mentions "Either source A or target B is not in G" "B".
Proof.
  apply (node_not_found_first id 0 only_B "A" "B" None "weight").
  left. vm_compute. discriminate.
Defined.

(** C3. A neighbour that already has an entry in [enqueued] is passed over
    without any comparison of distances: the round of the [for] loop leaves
    the state as it is, a whole expansion keeps the recorded pair and pushes
    no entry for that node, and the pair stays through every later
    iteration of the main loop. *)
Theorem first_discovery_is_permanent {V : Type} `{Countable V}
    (format : V → string) (G : Graph V) s t (h : V → V → Z) w
    (st : state V) n r :
  enqueued st !! n = Some r →
  (∀ cur dist a, visit t h w cur dist st (n, a) = st)
  ∧ (∀ cur dist items,
       enqueued (expand t h w cur dist items st) !! n = Some r
       ∧ filter (λ e, qnode e = n) (queue (expand t h w cur dist items st))
         = filter (λ e, qnode e = n) (queue st))
  ∧ (∀ st', rtc (step format G s t h w) st st' → enqueued st' !! n = Some r).
Proof.
  intros Hn. split; [|split].
  - intros cur dist a. by eapply visit_old.
  - intros cur dist items.
    destruct (expand_spec t h w cur dist items st) as [new Hx].
    destruct Hx. split; [by apply exp_keep0|].
    rewrite exp_queue0, filter_app, (filter_none _ new), app_nil_r; [done|].
    eapply Forall_impl; [exact exp_entries0|].
    intros e (_ & _ & Hnone & _) Heq. simpl in Heq. congruence.
  - intros st' Hr. induction Hr as [|st st1 st2 Hs _ IH]; [done|].
    apply IH. by eapply step_enqueued.
Qed.

Lemma first_discovery_is_permanent_witness :
  let st := state_after id diamond "A" "D" default_heuristic "weight" 1 in
  (∀ cur dist a, visit "D" default_heuristic "weight" cur dist st ("B", a) = st)
  ∧ (∀ cur dist items,
       enqueued (expand "D" default_heuristic "weight" cur dist items st) !! "B"
         = Some (1, 0)
       ∧ filter (λ e, qnode e = "B")
           (queue (expand "D" default_heuristic "weight" cur dist items st))
         = filter (λ e, qnode e = "B") (queue st))
  ∧ (∀ st', rtc (step id diamond "A" "D" default_heuristic "weight") st st' →
       enqueued st' !! "B" = Some (1, 0)).
Proof.
  apply (first_discovery_is_permanent id diamond "A" "D" default_heuristic
           "weight").
  vm_compute. reflexivity.
Defined.

(** C4. In every state the main loop can reach, popping a node that is
    already in [explored] (and is not the target) does nothing but drop the
    entry: both ledgers, the counter and the rest of the frontier stay as
    they are, so no predecessor is overwritten and no neighbour is
    visited. *)
Theorem explored_pop_is_skipped {V : Type} `{Countable V}
    (format : V → string) (G : Graph V) s t (h : V → V → Z) w wfuel
    (st : state V) e q :
  reachable format G s t h w st →
  heappop (queue st) = Some (e, q) →
  qnode e ≠ t →
  is_Some (explored st !! qnode e) →
  loop_body format G s t h w wfuel st
    = Continue (mkState q (c st) (enqueued st) (explored st)).
Proof.
  intros Hr Hp Hnt Hex.
  destruct (explored_pop_is_source format G s t h w st e q Hr Hp Hex)
    as [_ Hnone].
  unfold loop_body. rewrite Hp.
  rewrite decide_False by done. by rewrite decide_True.
Qed.

Lemma explored_pop_is_skipped_witness :
  let st := state_after id back_edge "A" "C" default_heuristic "weight" 2 in
  loop_body id back_edge "A" "C" default_heuristic "weight" 0 st
    = Continue (mkState [] (c st) (enqueued st) (explored st)).
Proof.
  apply (explored_pop_is_skipped id back_edge "A" "C" default_heuristic
           "weight" 0 _ (mkEntry 0 2 "A" 2 (Some "B")) []).
  - apply (state_after_reachable id back_edge "A" "C" default_heuristic
             "weight" 2).
    vm_compute. reflexivity.
  - vm_compute. reflexivity.
  - discriminate.
  - vm_compute. eexists. reflexivity.
Defined.

(** Outside the reachable states the guard of line 97 alone does not skip:
    a popped node recorded with a predecessor is expanded again. *)
Example recorded_predecessor_not_guarded :
  loop_body id back_edge "A" "C" default_heuristic "weight" 0
    (mkState [mkEntry 0 5 "B" 7 (Some "C")] 6
       {[ "A" := (0, 0); "B" := (1, 0) ]}
       {[ "A" := None; "B" := Some "A" ]})
  = Continue (mkState [] 6 {[ "A" := (0, 0); "B" := (1, 0) ]}
                {[ "A" := None; "B" := Some "C" ]}).
Proof. vm_compute. reflexivity. Qed.

(** C5. When [n] iterations of the main loop, none of which pops the target,
    leave the frontier empty, [greedy_path] raises [NetworkXNoPath] (with
    any fuel above [n]) and the message is built from the target and the
    source.  The witness is the graph on A and B without edges. *)
Theorem no_path_when_frontier_exhausted {V : Type} `{Countable V}
    (format : V → string) (G : Graph V) s t h w n (st : state V) fuel :
  is_multigraph G = false → s ∈ nodes G → t ∈ nodes G →
  run_steps format G s t (default default_heuristic h) w n (init s) = Some st →
  queue st = [] →
  (n < fuel)%nat →
  greedy_path format fuel G s t h w
    = Raise (NetworkXNoPath (no_path_msg format s t))
  ∧ mentions (no_path_msg format s t) (format s)
  ∧ mentions (no_path_msg format s t) (format t).
Proof.
  intros Hm Hs Ht Hrun Hq Hfuel. split; [|split].
  - rewrite greedy_path_unfold by done.
    replace fuel with (n + S (fuel - S n))%nat at 2 by lia.
    rewrite (greedy_loop_run_steps _ _ _ _ _ _ _ _ _ _ _ Hrun). simpl.
    unfold loop_body. by rewrite Hq.
  - exists ("Node " +:+ format t +:+ " not reachable from "), EmptyString.
    unfold no_path_msg. by rewrite append_empty_r, !append_assoc.
  - by exists "Node ", (" not reachable from " +:+ format s).
Qed.

Lemma no_path_when_frontier_exhausted_witness :
  greedy_path id 2 two_nodes "A" "B" None "weight"
    = Raise (NetworkXNoPath "Node B not reachable from A")
  ∧ mentions "Node B not reachable from A" "A"
  ∧ mentions "Node B not reachable from A" "B".
Proof.
  apply (no_path_when_frontier_exhausted id two_nodes "A" "B" None "weight" 1
           (state_after id two_nodes "A" "B" default_heuristic "weight" 1) 2).
  - reflexivity.
  - vm_compute. reflexivity.
  - vm_compute. reflexivity.
  - vm_compute. reflexivity.
  - vm_compute. reflexivity.
  - lia.
Defined.

(** C6. With the source as the target, and that node in the graph, the
    first iteration returns the one-element path: no edge is traversed. *)
Theorem source_is_target {V : Type} `{Countable V}
    (format : V → string) (G : Graph V) n h w fuel :
  is_multigraph G = false → n ∈ nodes G →
  greedy_path format (S fuel) G n n h w = Return [n].
Proof.
  intros Hm Hn. rewrite greedy_path_unfold by done.
  simpl. unfold loop_body. simpl. by rewrite decide_True.
Qed.

Lemma source_is_target_witness :
  greedy_path id 1 diamond "C" "C" None "weight" = Return ["C"].
Proof.
  apply (source_is_target id diamond "C" None "weight" 0).
  - reflexivity.
  - vm_compute. reflexivity.
Defined.

(** C8. On a multigraph the call fails with the unsupported-graph-kind
    error whatever the other arguments and whatever the fuel, so without a
    single iteration of the search. *)
Theorem multigraph_rejected {V : Type} `{Countable V}
    (format : V → string) (G : Graph V) s t h w fuel :
  is_multigraph G = true →
  greedy_path format fuel G s t h w = Raise UnsupportedGraphKind.
Proof.
  intros Hm. unfold greedy_path, not_implemented_for_multigraph.
  by rewrite Hm.
Qed.

Lemma multigraph_rejected_witness :
  greedy_path id 0 multi "A" "B" None "weight" = Raise UnsupportedGraphKind.
Proof. apply (multigraph_rejected id multi "A" "B" None "weight" 0). reflexivity. Defined.

(** C7. The frontier starts as the single entry (0, 0, source, 0, None).
    The default heuristic is constantly 0.  An expansion pushes, for each
    neighbour not yet in [enqueued], an entry whose priority is the
    heuristic of that neighbour, whose distance is the distance of the
    expanded node plus the edge weight (1 when the attribute is absent),
    whose predecessor is the expanded node, and whose sequence numbers are
    the next values of the counter.  The order of the frontier reads the
    priority and the sequence number only, and [heappop] returns a least
    entry of it; in every reachable state each entry other than the initial
    one has the heuristic as its priority and the sequence numbers are
    pairwise distinct and below the counter. *)
Theorem frontier_priority_is_heuristic {V : Type} `{Countable V}
    (format : V → string) (G : Graph V) s t (h : option (V → V → Z)) w :
  let hf := default default_heuristic h in
  init s = mkState [mkEntry 0 0 s 0 None] 1 ∅ ∅
  ∧ (∀ u v, default default_heuristic (@None (V → V → Z)) u v = 0)
  ∧ (∀ (st : state V) cur dist items,
       ∃ new, expansion t hf w cur dist items st
                (expand t hf w cur dist items st) new)
  ∧ (∀ (st : state V) cur dist n a,
       enqueued st !! n = None → a !! w = None →
       queue (visit t hf w cur dist st (n, a))
         = queue st ++ [mkEntry (hf n t) (c st) n (dist + 1) (Some cur)])
  ∧ (∀ p1 s1 (n1 : V) d1 d1' par1 p2 s2 (n2 : V) d2 d2' par2,
       entry_le (mkEntry p1 s1 n1 d1 par1) (mkEntry p2 s2 n2 d2 par2)
         = entry_le (mkEntry p1 s1 n1 d1' par1) (mkEntry p2 s2 n2 d2' par2))
  ∧ (∀ st, reachable format G s t hf w st →
       Forall (λ e, e = mkEntry 0 0 s 0 None ∨ priority e = hf (qnode e) t)
              (queue st)
       ∧ Forall (λ e, (seqno e < c st)%nat) (queue st)
       ∧ NoDup (seqno <$> queue st)
       ∧ ∀ m r, heappop (queue st) = Some (m, r) →
                Forall (λ x, entry_le m x = true) (queue st)).
Proof.
  intros hf. split; [done|]. split; [done|]. split; [|split; [|split]].
  - intros st cur dist items. apply expand_spec.
  - intros st cur dist n a Hn Ha.
    rewrite (visit_new _ _ _ _ _ _ _ _ Hn). simpl. by rewrite Ha.
  - done.
  - intros st Hr. split; [|split; [|split]].
    + apply inv_reachable in Hr as [-> | Hi].
      * constructor; [by left | constructor].
      * eapply Forall_impl; [exact (inv_queue _ _ _ _ _ Hi)|].
        intros e (p & _ & _ & _ & _ & _ & Hprio). by right.
    + apply inv_reachable in Hr as [-> | Hi].
      * constructor; [simpl; lia | constructor].
      * exact (inv_seq _ _ _ _ _ Hi).
    + apply inv_reachable in Hr as [-> | Hi].
      * simpl. apply NoDup_singleton.
      * exact (inv_seq_nodup _ _ _ _ _ Hi).
    + intros m r. apply heappop_min.
Qed.

Lemma frontier_priority_is_heuristic_witness :
  let st := state_after id diamond "A" "D" default_heuristic "weight" 1 in
  Forall (λ e, e = mkEntry 0 0 "A" 0 None
               ∨ priority e = default_heuristic (qnode e) "D") (queue st)
  ∧ Forall (λ e, (seqno e < c st)%nat) (queue st)
  ∧ NoDup (seqno <$> queue st)
  ∧ ∀ m r, heappop (queue st) = Some (m, r) →
           Forall (λ x, entry_le m x = true) (queue st).
Proof.
  apply (frontier_priority_is_heuristic id diamond "A" "D" None "weight").
  apply (state_after_reachable id diamond "A" "D" default_heuristic
           "weight" 1).
  vm_compute. reflexivity.
Defined.

(** C9. On a well-formed graph that is not a multigraph and holds the source
    and the target, [greedy_path] ends, whatever the heuristic (the
    constantly zero default included): from some amount of fuel on, it has
    one and the same outcome, a returned path or [NetworkXNoPath]. *)
Theorem greedy_path_terminates {V : Type} `{Countable V}
    (format : V → string) (G : Graph V) s t h w :
  is_multigraph G = false → wf_graph G → s ∈ nodes G → t ∈ nodes G →
  ∃ N o,
    ((∃ path, o = Return path)
     ∨ o = Raise (NetworkXNoPath (no_path_msg format s t)))
    ∧ ∀ fuel, (N ≤ fuel)%nat → greedy_path format fuel G s t h w = o.
Proof.
  intros Hm Hwf Hs Ht.
  destruct (loop_terminates format G s t (default default_heuristic h) w Hwf
              (measure G (init s)) (init s))
    as (N & o & Hgood & Hrun).
  - done.
  - by left.
  - constructor; [done | constructor].
  - exists N, o. split; [done|]. intros fuel Hf.
    rewrite greedy_path_unfold by done. by apply Hrun.
Qed.

Lemma wf_graph_diamond : wf_graph diamond.
Proof.
  split.
  - vm_compute. reflexivity.
  - apply (bool_decide_unpack _). vm_compute. exact I.
Qed.

Lemma greedy_path_terminates_witness :
  ∃ N o,
    ((∃ path, o = Return path)
     ∨ o = Raise (NetworkXNoPath (no_path_msg id "A" "D")))
    ∧ ∀ fuel, (N ≤ fuel)%nat →
        greedy_path id fuel diamond "A" "D" None "weight" = o.
Proof.
  apply (greedy_path_terminates id diamond "A" "D" None "weight").
  - reflexivity.
  - exact wf_graph_diamond.
  - vm_compute. reflexivity.
  - vm_compute. reflexivity.
Defined.

(** C10. In every state the main loop can reach: the source, once recorded
    in [explored], maps to [None], and no other node does; a recorded
    predecessor is itself recorded; an iteration keeps every entry of
    [explored] and, when it writes a new one, its predecessor was recorded
    before; from every recorded node the predecessors lead to a [None]
    entry; so the backward walk from a recorded node ends, with a path that
    starts at the source, and so does the walk the path reconstruction runs
    when the target is popped. *)
Theorem explored_chain_well_founded {V : Type} `{Countable V}
    (format : V → string) (G : Graph V) s t (h : V → V → Z) w (st : state V) :
  reachable format G s t h w st →
  (∀ x, explored st !! s = Some x → x = None)
  ∧ (∀ n, explored st !! n = Some None → n = s)
  ∧ (∀ n p, explored st !! n = Some (Some p) → is_Some (explored st !! p))
  ∧ (∀ st', step format G s t h w st st' →
       explored st ⊆ explored st'
       ∧ ∀ n p, explored st !! n = None → explored st' !! n = Some (Some p) →
                is_Some (explored st !! p))
  ∧ (∀ n, is_Some (explored st !! n) → linked (explored st) n)
  ∧ (∀ n acc, is_Some (explored st !! n) →
       ∃ k l, path_from G s n l
            ∧ ∀ fuel, (k ≤ fuel)%nat →
                walk fuel (explored st) (Some n) acc = Return (l ++ reverse acc))
  ∧ (∀ e q, heappop (queue st) = Some (e, q) → qnode e = t →
       ∃ k path, path_from G s t path
               ∧ ∀ fuel, (k ≤ fuel)%nat →
                   walk fuel (explored st) (qparent e) [qnode e] = Return path).
Proof.
  intros Hr. pose proof (inv_reachable _ _ _ _ _ _ _ Hr) as Hi.
  assert (Hlinked : ∀ n, is_Some (explored st !! n) → linked (explored st) n).
  { destruct Hi as [-> | Hi]; [|exact (inv_linked _ _ _ _ _ Hi)].
    intros n. simpl. rewrite lookup_empty. by intros [? ?]. }
  assert (Hroot : ∀ n, explored st !! n = Some None → n = s).
  { destruct Hi as [-> | Hi]; [|exact (inv_root _ _ _ _ _ Hi)].
    intros n. simpl. by rewrite lookup_empty. }
  assert (Hparent : ∀ n p, explored st !! n = Some (Some p) →
            has_edge G p n ∧ is_Some (explored st !! p)).
  { destruct Hi as [-> | Hi]; [|exact (inv_parent _ _ _ _ _ Hi)].
    intros n p. simpl. by rewrite lookup_empty. }
  split; [|split; [|split; [|split; [|split; [|split]]]]].
  - destruct Hi as [-> | Hi].
    + intros x. simpl. by rewrite lookup_empty.
    + intros x. rewrite (inv_source _ _ _ _ _ Hi). congruence.
  - done.
  - intros n p Hn. by destruct (Hparent n p Hn).
  - intros st' Hs. by eapply step_explored.
  - done.
  - intros n acc Hn.
    destruct (walk_linked _ _ (Hlinked n Hn)) as [k Hk].
    destruct (Hk acc) as [res Hres].
    destruct (walk_path G s (explored st) Hroot
                (λ n p Hn, proj1 (Hparent n p Hn)) k n acc res)
      as (l & Hl & ->); [by apply Hres|].
    by exists k, l.
  - intros e q Hp Ht.
    destruct (popped_walk_ends G s t h st e q Hi Hp) as (k & res & Hres).
    exists k, res. split; [|done].
    eapply (target_pop_path G s t h k); eauto.
Qed.

Lemma explored_chain_well_founded_witness :
  let st := state_after id diamond "A" "D" default_heuristic "weight" 2 in
  (∀ x, explored st !! "A" = Some x → x = None)
  ∧ (∀ n, explored st !! n = Some None → n = "A")
  ∧ (∀ n p, explored st !! n = Some (Some p) → is_Some (explored st !! p))
  ∧ (∀ st', step id diamond "A" "D" default_heuristic "weight" st st' →
       explored st ⊆ explored st'
       ∧ ∀ n p, explored st !! n = None → explored st' !! n = Some (Some p) →
                is_Some (explored st !! p))
  ∧ (∀ n, is_Some (explored st !! n) → linked (explored st) n)
  ∧ (∀ n acc, is_Some (explored st !! n) →
       ∃ k l, path_from diamond "A" n l
            ∧ ∀ fuel, (k ≤ fuel)%nat →
                walk fuel (explored st) (Some n) acc = Return (l ++ reverse acc))
  ∧ (∀ e q, heappop (queue st) = Some (e, q) → qnode e = "D" →
       ∃ k path, path_from diamond "A" "D" path
               ∧ ∀ fuel, (k ≤ fuel)%nat →
                   walk fuel (explored st) (qparent e) [qnode e] = Return path).
Proof.
  apply (explored_chain_well_founded id diamond "A" "D" default_heuristic
           "weight").
  apply (state_after_reachable id diamond "A" "D" default_heuristic
           "weight" 2).
  vm_compute. reflexivity.
Defined.

(** ** The accumulated distance does not steer the search *)

Section WeightFacts.
Context {V : Type} `{Countable V}.
Variable format : V → string.
Variable G : Graph V.
Variables source target : V.
Variable heuristic : V → V → Z.

Lemma entry_le_forget (a a' b b' : QueueEntry V) :
  forget_dist a = forget_dist a' → forget_dist b = forget_dist b' →
  entry_le a b = entry_le a' b'.
Proof.
  unfold forget_dist, entry_le. intros [= -> -> _ _] [= -> -> _ _]. done.
Qed.

Lemma pop_least_forget (q : list (QueueEntry V)) :
  ∀ q' e e' m r m' r',
    forget_dist e = forget_dist e' →
    forget_dist <$> q = forget_dist <$> q' →
    pop_least e q = (m, r) → pop_least e' q' = (m', r') →
    forget_dist m = forget_dist m' ∧ forget_dist <$> r = forget_dist <$> r'.
Proof.
  induction q as [|x q IH]; intros q' e e' m r m' r' He Hq Hp Hp'.
  - symmetry in Hq. apply fmap_nil_inv in Hq as ->.
    simpl in *. by injection Hp as <- <-; injection Hp' as <- <-.
  - destruct q' as [|x' q']; [done|].
    rewrite !fmap_cons in Hq.
    assert (Hx : forget_dist x = forget_dist x') by congruence.
    assert (Hq' : forget_dist <$> q = forget_dist <$> q') by congruence.
    simpl in Hp, Hp'.
    destruct (pop_least x q) as [m0 r0] eqn:Hpx.
    destruct (pop_least x' q') as [m0' r0'] eqn:Hpx'.
    destruct (IH _ _ _ _ _ _ _ Hx Hq' Hpx Hpx') as [Hm Hr].
    rewrite (entry_le_forget e e' m0 m0' He Hm) in Hp.
    destruct (entry_le e' m0'); injection Hp as <- <-; injection Hp' as <- <-.
    + split; [done|]. rewrite !fmap_cons. by f_equal.
    + split; [done|]. rewrite !fmap_cons. by f_equal.
Qed.

Lemma visit_same w w' cur dist dist' (st st' : state V) it :
  same_search st st' →
  same_search (visit target heuristic w cur dist st it)
              (visit target heuristic w' cur dist' st' it).
Proof.
  intros (Hq & Hc & He & Hx). destruct it as [n a]. unfold visit.
  assert (Hn : snd <$> (enqueued st !! n) = snd <$> (enqueued st' !! n)).
  { by rewrite <- !lookup_fmap, He. }
  destruct (enqueued st !! n) as [[? ?]|], (enqueued st' !! n) as [[? ?]|];
    try done.
  repeat split; simpl; try done.
  - unfold heappush. rewrite !fmap_app, Hq, Hc. done.
  - by rewrite Hc.
  - by rewrite !fmap_insert, He.
Qed.

Lemma expand_same w w' cur dist dist' items :
  ∀ st st' : state V,
    same_search st st' →
    same_search (expand target heuristic w cur dist items st)
                (expand target heuristic w' cur dist' items st').
Proof.
  unfold expand. induction items as [|it items IH]; intros st st' Hs; [done|].
  simpl. apply IH. by apply visit_same.
Qed.

Lemma loop_body_same w w' wfuel (st st' : state V) :
  same_search st st' →
  match loop_body format G source target heuristic w wfuel st,
        loop_body format G source target heuristic w' wfuel st' with
  | Continue a, Continue b => same_search a b
  | Finished o, Finished o' => o = o'
  | _, _ => False
  end.
Proof.
  intros (Hq & Hc & He & Hx). unfold loop_body.
  destruct (queue st) as [|e q], (queue st') as [|e' q']; try done.
  rewrite !fmap_cons in Hq. simpl.
  assert (Hee : forget_dist e = forget_dist e') by congruence.
  assert (Hqq : forget_dist <$> q = forget_dist <$> q') by congruence.
  destruct (pop_least e q) as [m r] eqn:Hm.
  destruct (pop_least e' q') as [m' r'] eqn:Hm'.
  destruct (pop_least_forget q q' e e' m r m' r') as [Hf Hr]; try done.
  unfold forget_dist in Hf. injection Hf as _ _ Hnode Hparent.
  rewrite <- Hnode, <- Hparent, <- Hx.
  destruct (decide (qnode m = target)); [done|].
  destruct (decide (explored st !! qnode m = Some None)); [done|].
  destruct (getitem G (qnode m)); [|done].
  apply expand_same. done.
Qed.

Lemma greedy_loop_same w w' wfuel fuel :
  ∀ st st' : state V,
    same_search st st' →
    greedy_loop format G source target heuristic w wfuel fuel st
    = greedy_loop format G source target heuristic w' wfuel fuel st'.
Proof.
  induction fuel as [|fuel IH]; intros st st' Hs; [done|]. simpl.
  pose proof (loop_body_same w w' wfuel st st' Hs) as Hb.
  destruct (loop_body format G source target heuristic w wfuel st),
           (loop_body format G source target heuristic w' wfuel st');
    try done.
  by apply IH.
Qed.
End WeightFacts.

(** X1. The weight key, and with it every edge weight, has no bearing on
    the outcome: two calls that differ in the weight key only return the
    same path or raise the same error. *)
Theorem weight_key_is_irrelevant {V : Type} `{Countable V}
    (format : V → string) fuel (G : Graph V) s t h w w' :
  greedy_path format fuel G s t h w = greedy_path format fuel G s t h w'.
Proof.
  unfold greedy_path, not_implemented_for_multigraph, greedy_path_body.
  destruct (is_multigraph G); [done|].
  destruct (negb (contains G s) || negb (contains G t)); [done|].
  by apply greedy_loop_same.
Qed.

(** ** What an exhausted frontier means *)

Section SweepFacts.
Context {V : Type} `{Countable V}.
Variable format : V → string.
Variable G : Graph V.
Variables source target : V.
Variable heuristic : V → V → Z.
Variable weight : string.

Local Abbreviation step := (step format G source target heuristic weight).
Local Abbreviation expand := (expand target heuristic weight).
Local Abbreviation visit := (visit target heuristic weight).

Lemma visit_keeps cur dist (st : state V) it v :
  is_Some (enqueued st !! v) → is_Some (enqueued (visit cur dist st it) !! v).
Proof.
  intros Hv. destruct it as [n a].
  destruct (enqueued st !! n) as [r|] eqn:Hn.
  - by rewrite (visit_old _ _ _ _ _ _ _ _ _ Hn).
  - rewrite (visit_new _ _ _ _ _ _ _ _ Hn). simpl.
    rewrite lookup_insert. by case_decide.
Qed.

(** After an expansion every neighbour is discovered. *)
Lemma expand_covers cur dist items (st : state V) v a :
  (v, a) ∈ items → is_Some (enqueued (expand cur dist items st) !! v).
Proof.
  induction items as [|x items IH] using rev_ind; intros Hin.
  - by apply elem_of_nil in Hin.
  - rewrite expand_snoc. apply elem_of_app in Hin as [Hin | Hin].
    + apply visit_keeps. by apply IH.
    + apply list_elem_of_singleton in Hin as <-.
      destruct (enqueued (expand cur dist items st) !! v) as [r|] eqn:Hv.
      * rewrite (visit_old _ _ _ _ _ _ _ _ _ Hv). by rewrite Hv.
      * rewrite (visit_new _ _ _ _ _ _ _ _ Hv). simpl.
        by rewrite lookup_insert_eq.
Qed.

Lemma sweep_init : sweep_inv G source target (init source).
Proof.
  split; simpl.
  - by rewrite lookup_empty.
  - intros n v. rewrite lookup_empty. by intros [? ?].
  - intros n. rewrite lookup_empty. by intros [? ?].
  - left. apply list_elem_of_here.
Qed.

Lemma sweep_step (st st' : state V) :
  sweep_inv G source target st → step st st' → sweep_inv G source target st'.
Proof.
  intros Hi Hs. apply loop_body_Continue in Hs as (e & q & Hp & Hnt & Hcase).
  apply heappop_perm in Hp. destruct Hi.
  assert (Hmem : ∀ n, n ∈ qnode <$> queue st → n = qnode e ∨ n ∈ qnode <$> q).
  { intros n. rewrite Hp, fmap_cons. apply elem_of_cons. }
  destruct Hcase as [[Hex ->] | (Hex & items & Hg & ->)].
  - split; simpl; try done.
    + intros n Hn. destruct (sweep_pending0 n Hn) as [Hq | ?]; [|by right].
      destruct (Hmem n Hq) as [-> | ?]; [right | by left]. by rewrite Hex.
    + destruct sweep_source0 as [Hq | ?]; [|by right].
      destruct (Hmem _ Hq) as [-> | ?]; [right | by left]. by rewrite Hex.
  - destruct (expand_spec target heuristic weight (qnode e) (qdist e) items
                (mkState q (c st) (enqueued st)
                   (<[qnode e := qparent e]> (explored st)))) as [new Hx].
    pose proof (expand_covers (qnode e) (qdist e) items
                  (mkState q (c st) (enqueued st)
                     (<[qnode e := qparent e]> (explored st)))) as Hcov.
    destruct Hx. simpl in *.
    assert (Hmono : ∀ m, is_Some (explored st !! m) →
              is_Some (<[qnode e := qparent e]> (explored st) !! m)).
    { intros m Hm. rewrite lookup_insert. by case_decide. }
    split; rewrite ?exp_explored0, ?exp_queue0; simpl.
    + by rewrite lookup_insert_ne.
    + intros n v Hn (nbrs & a & Hnb & Ha).
      rewrite lookup_insert in Hn. case_decide as Heq.
      * subst n. rewrite Hg in Hnb. injection Hnb as <-. by eapply Hcov.
      * destruct (sweep_closed0 n v Hn) as [r Hr]; [by exists nbrs, a|].
        exists r. by apply exp_keep0.
    + intros n Hn. apply exp_dom0 in Hn as [Hn | Hn].
      * destruct (sweep_pending0 n Hn) as [Hq | ?]; [|right; by apply Hmono].
        destruct (Hmem n Hq) as [-> | ?].
        -- right. by rewrite lookup_insert_eq.
        -- left. rewrite fmap_app. apply elem_of_app. by left.
      * left. rewrite fmap_app. apply elem_of_app. by right.
    + destruct sweep_source0 as [Hq | ?]; [|right; by apply Hmono].
      destruct (Hmem _ Hq) as [-> | ?].
      * right. by rewrite lookup_insert_eq.
      * left. rewrite fmap_app. apply elem_of_app. by left.
Qed.

(** With the frontier empty, whatever has a path from the source is
    recorded. *)
Lemma sweep_exhausted (st : state V) n l :
  sweep_inv G source target st → queue st = [] →
  path_from G source n l → is_Some (explored st !! n).
Proof.
  intros Hi Hq. destruct Hi. rewrite Hq in *.
  induction 1 as [|n m l Hl IH He].
  - destruct sweep_source0 as [Hin | ?]; [|done]. by apply elem_of_nil in Hin.
  - destruct (sweep_pending0 m) as [Hin | ?]; [by eapply sweep_closed0 | | done].
    by apply elem_of_nil in Hin.
Qed.

Lemma walk_not_no_path fuel (ex : gmap V (option V)) : ∀ node acc msg,
  walk fuel ex node acc ≠ Raise (NetworkXNoPath msg).
Proof.
  induction fuel as [|fuel IH]; intros [n|] acc msg; simpl; try done.
  destruct (ex !! n); [apply IH | done].
Qed.

Lemma greedy_loop_no_path wfuel fuel msg :
  greedy_loop format G source target heuristic weight wfuel fuel (init source)
    = Raise (NetworkXNoPath msg) →
  ¬ ∃ l, path_from G source target l.
Proof.
  intros Hrun [l Hl].
  destruct (greedy_loop_inv format G source target heuristic weight
              (sweep_inv G source target) wfuel fuel (init source)
              (Raise (NetworkXNoPath msg)))
    as (st & Hi & _ & Hfin);
    [apply sweep_init | intros ? ? ? ?; by eapply sweep_step | done | done |].
  apply loop_body_Finished in Hfin
    as [[Hq _] | (e & q & Hp & [[_ Hw] | (_ & _ & _ & ?)])]; [| |done].
  - pose proof (sweep_exhausted st target l Hi Hq Hl) as Hex.
    rewrite (sweep_target _ _ _ _ Hi) in Hex. by destruct Hex.
  - symmetry in Hw. by apply walk_not_no_path in Hw.
Qed.
End SweepFacts.

Lemma greedy_path_Raise_loop {V : Type} `{Countable V} (format : V → string)
    fuel (G : Graph V) s t h w e :
  greedy_path format fuel G s t h w = Raise e →
  (∀ msg, e ≠ NodeNotFound msg) → e ≠ UnsupportedGraphKind →
  greedy_loop format G s t (default default_heuristic h) w fuel fuel (init s)
    = Raise e.
Proof.
  unfold greedy_path, not_implemented_for_multigraph, greedy_path_body.
  destruct (is_multigraph G); [intros [= <-] _ ?; done|].
  destruct (negb (contains G s) || negb (contains G t)); [|done].
  intros [= <-] Hn _. by destruct (Hn (node_not_found_msg format s t)).
Qed.

(** X2. [NetworkXNoPath] is raised only when the graph has no path from the
    source to the target. *)
Theorem no_path_error_is_sound {V : Type} `{Countable V}
    (format : V → string) fuel (G : Graph V) s t h w msg :
  greedy_path format fuel G s t h w = Raise (NetworkXNoPath msg) →
  ¬ ∃ l, path_from G s t l.
Proof.
  intros Hrun. apply greedy_path_Raise_loop in Hrun; [|done|done].
  by eapply greedy_loop_no_path.
Qed.

Lemma no_path_error_is_sound_witness :
  ¬ ∃ l, path_from two_nodes "A" "B" l.
Proof.
  apply (no_path_error_is_sound id 2 two_nodes "A" "B" None "weight"
           "Node B not reachable from A").
  vm_compute. reflexivity.
Defined.

(** ** The length of the predecessor chain *)

Section DepthFacts.
Context {V : Type} `{Countable V}.
Implicit Types (ex : gmap V (option V)).

Lemma depth_fun ex n k : depth ex n k → ∀ k', depth ex n k' → k = k'.
Proof.
  induction 1 as [n Hn | n p k Hn _ IH]; intros k' Hk'.
  - inversion Hk'; [done | congruence].
  - inversion Hk' as [|n' p' j Hn' Hp']; subst; [congruence|].
    f_equal. apply IH. congruence.
Qed.

Lemma linked_depth ex n : linked ex n → ∃ k, depth ex n k.
Proof.
  induction 1 as [n Hn | n p Hn _ [k IH]].
  - exists 0%nat. by constructor.
  - exists (S k). by econstructor.
Qed.

Lemma depth_is_Some ex n k : depth ex n k → is_Some (ex !! n).
Proof. by destruct 1; eexists. Qed.

(** The walk from a node of depth [k] lists [k + 1] nodes, the one at
    position [i] of depth [i]. *)
Lemma walk_depth ex n k :
  depth ex n k →
  ∀ fuel acc res,
    walk fuel ex (Some n) acc = Return res →
    ∃ l, res = l ++ reverse acc ∧ length l = S k
       ∧ ∀ i x, l !! i = Some x → depth ex x i.
Proof.
  induction 1 as [n Hn | n p k Hn Hp IH]; intros [|fuel] acc res Hw;
    try done; simpl in Hw; rewrite Hn in Hw.
  - exists [n]. destruct fuel; simpl in Hw; injection Hw as <-;
      (split; [by rewrite reverse_app|]); (split; [done|]);
      intros [|i] x [= <-]; by constructor.
  - destruct (IH _ _ _ Hw) as (l & -> & Hlen & Hl).
    exists (l ++ [n]). split; [|split].
    + rewrite reverse_app. simpl. by rewrite <- app_assoc.
    + rewrite length_app. simpl. lia.
    + intros i x Hi. apply lookup_snoc_Some in Hi as [[_ Hi] | [Hi <-]].
      * by apply Hl.
      * rewrite Hi, Hlen. by econstructor.
Qed.

Lemma walk_depth_fuel ex n k :
  depth ex n k →
  ∀ fuel acc, (S k ≤ fuel)%nat → ∃ res, walk fuel ex (Some n) acc = Return res.
Proof.
  induction 1 as [n Hn | n p k Hn Hp IH]; intros [|fuel] acc Hf;
    try lia; simpl; rewrite Hn.
  - destruct fuel; by eexists.
  - apply IH. lia.
Qed.

Lemma depth_indexed_NoDup ex (l : list V) :
  (∀ i x, l !! i = Some x → depth ex x i) → NoDup l.
Proof.
  intros Hl. apply NoDup_alt. intros i j x Hi Hj.
  eapply depth_fun; eauto.
Qed.

(** A chain of [k] links goes through [k + 1] recorded nodes. *)
Lemma depth_bound ex n k : depth ex n k → (S k ≤ size (dom ex))%nat.
Proof.
  intros Hd. destruct (walk_depth_fuel ex n k Hd (S k) []) as [res Hres]; [done|].
  destruct (walk_depth ex n k Hd _ _ _ Hres) as (l & _ & Hlen & Hl).
  rewrite <- Hlen.
  rewrite <- (size_list_to_set (C := gset V) l)
    by by eapply depth_indexed_NoDup.
  apply subseteq_size. intros x Hx.
  apply elem_of_list_to_set, list_elem_of_lookup in Hx as [i Hi].
  apply elem_of_dom. eapply depth_is_Some. eauto.
Qed.

Lemma linked_walk_no_key_error ex n :
  linked ex n → ∀ fuel acc k, walk fuel ex (Some n) acc ≠ Raise (KeyError k).
Proof.
  induction 1 as [n Hn | n p Hn _ IH]; intros [|fuel] acc k; simpl;
    try done; rewrite Hn.
  - by destruct fuel.
  - apply IH.
Qed.
End DepthFacts.

(** ** Outcomes of the main loop *)

Section OutcomeFacts.
Context {V : Type} `{Countable V}.
Variable format : V → string.
Variable G : Graph V.
Variables source target : V.
Variable heuristic : V → V → Z.
Variable weight : string.

Local Abbreviation step := (step format G source target heuristic weight).
Local Abbreviation loop_body :=
  (loop_body format G source target heuristic weight).
Local Abbreviation greedy_loop :=
  (greedy_loop format G source target heuristic weight).
Local Abbreviation inv := (inv G source target heuristic).

(** The state in which the loop ends, with the invariants it still has. *)
Lemma greedy_loop_end wfuel fuel o :
  greedy_loop wfuel fuel (init source) = o → o ≠ OutOfFuel →
  ∃ st, inv st ∧ sweep_inv G source target st
      ∧ loop_body wfuel st = Finished o.
Proof.
  intros Hrun Hof.
  destruct (greedy_loop_inv format G source target heuristic weight
              (λ st, inv st ∧ sweep_inv G source target st)
              wfuel fuel (init source) o)
    as (st & [Hi Hs] & _ & Hfin); try done.
  - split; [by left | apply sweep_init].
  - intros st1 st2 [Hi Hs] Hst. split.
    + right. by eapply inv_step.
    + by eapply sweep_step.
  - by exists st.
Qed.

Lemma greedy_loop_Return_path wfuel fuel path :
  greedy_loop wfuel fuel (init source) = Return path →
  path_from G source target path.
Proof.
  intros Hrun.
  destruct (greedy_loop_end _ _ _ Hrun) as (st & Hi & _ & Hfin); [done|].
  apply loop_body_Finished in Hfin
    as [[_ ?] | (e & q & Hp & [[Ht Hw] | (_ & _ & _ & ?)])]; [done| |done].
  symmetry in Hw. by eapply target_pop_path.
Qed.

Lemma greedy_loop_Return_NoDup wfuel fuel path :
  greedy_loop wfuel fuel (init source) = Return path → NoDup path.
Proof.
  intros Hrun.
  destruct (greedy_loop_end _ _ _ Hrun) as (st & Hi & Hs & Hfin); [done|].
  apply loop_body_Finished in Hfin
    as [[_ ?] | (e & q & Hp & [[Ht Hw] | (_ & _ & _ & ?)])]; [done| |done].
  symmetry in Hw. destruct Hi as [-> | Hi].
  - simpl in Hp. injection Hp as <- <-. simpl in Hw.
    destruct wfuel; simpl in Hw; injection Hw as <-; apply NoDup_singleton.
  - pose proof (heappop_perm _ _ _ Hp) as Hperm.
    pose proof (inv_queue _ _ _ _ _ Hi) as Hq. rewrite Hperm in Hq.
    apply Forall_cons in Hq as [(p & Hpar & Hpex & _) _].
    destruct (linked_depth _ _ (inv_linked _ _ _ _ _ Hi p Hpex)) as [k Hk].
    rewrite Hpar in Hw.
    destruct (walk_depth _ _ _ Hk _ _ _ Hw) as (l & -> & _ & Hl).
    simpl. apply NoDup_app. split; [by eapply depth_indexed_NoDup|].
    split; [|apply NoDup_singleton].
    intros x Hx Hxt. apply list_elem_of_singleton in Hxt as ->.
    apply list_elem_of_lookup in Hx as [i Hi'].
    apply Hl, depth_is_Some in Hi'. rewrite Ht in Hi'.
    rewrite (sweep_target _ _ _ _ Hs) in Hi'. by destruct Hi'.
Qed.

(** A [KeyError] names a frontier node without adjacency dictionary. *)
Lemma greedy_loop_KeyError wfuel fuel k :
  greedy_loop wfuel fuel (init source) = Raise (KeyError k) →
  getitem G k = None ∧ (k = source ∨ ∃ u, has_edge G u k).
Proof.
  intros Hrun.
  destruct (greedy_loop_end _ _ _ Hrun) as (st & Hi & _ & Hfin); [done|].
  apply loop_body_Finished in Hfin
    as [[_ ?] | (e & q & Hp & [[Ht Hw] | (_ & _ & Hg & [= ->])])]; [done| |].
  - exfalso. symmetry in Hw. destruct Hi as [-> | Hi].
    + simpl in Hp. injection Hp as <- <-. simpl in Hw. by destruct wfuel.
    + pose proof (heappop_perm _ _ _ Hp) as Hperm.
      pose proof (inv_queue _ _ _ _ _ Hi) as Hq. rewrite Hperm in Hq.
      apply Forall_cons in Hq as [(p & Hpar & Hpex & _) _].
      rewrite Hpar in Hw.
      exact (linked_walk_no_key_error _ _ (inv_linked _ _ _ _ _ Hi p Hpex)
               _ _ _ Hw).
  - split; [done|]. destruct Hi as [-> | Hi].
    + simpl in Hp. injection Hp as <- <-. by left.
    + pose proof (heappop_perm _ _ _ Hp) as Hperm.
      pose proof (inv_queue _ _ _ _ _ Hi) as Hq. rewrite Hperm in Hq.
      apply Forall_cons in Hq as [(p & _ & _ & He & _) _]. right. by exists p.
Qed.

Lemma step_explored_in_graph (st st' : state V) :
  in_graph G st → explored_in_graph G st → step st st' →
  explored_in_graph G st'.
Proof.
  intros Hin Hex Hs.
  apply loop_body_Continue in Hs as (e & q & Hp & _ & Hcase).
  apply heappop_perm in Hp. unfold in_graph in Hin. rewrite Hp in Hin.
  apply Forall_cons in Hin as [He _].
  destruct Hcase as [[_ ->] | (_ & items & Hg & ->)]; [done|].
  destruct (expand_spec target heuristic weight (qnode e) (qdist e) items
              (mkState q (c st) (enqueued st)
                 (<[qnode e := qparent e]> (explored st)))) as [new Hx].
  intros n. rewrite (exp_explored _ _ _ _ _ _ _ _ _ Hx). simpl.
  rewrite lookup_insert. case_decide as Hn; [by subst | apply Hex].
Qed.

(** The loop ends within [measure] iterations, and the walk within as many
    steps as the graph has nodes. *)
Lemma loop_bound :
  wf_graph G →
  ∀ n (st : state V),
    (measure G st ≤ n)%nat → inv st → in_graph G st → explored_in_graph G st →
    ∀ wfuel fuel, (n < fuel)%nat → (size (nodes G) ≤ wfuel)%nat →
      (∃ path, greedy_loop wfuel fuel st = Return path)
      ∨ greedy_loop wfuel fuel st
          = Raise (NetworkXNoPath (no_path_msg format source target)).
Proof.
  intros Hwf. induction n as [|n IH];
    intros st Hm Hi Hin Hex wfuel [|fuel] Hf Hw; try lia; simpl;
    destruct (loop_body wfuel st) as [st'|o] eqn:Hb.
  - assert (Hs : step st st') by (by eapply loop_body_Continue_fuel).
    apply (step_measure _ _ _ _ _ _ _ _ Hwf) in Hs. lia.
  - apply loop_body_Finished in Hb
      as [[Hq ->] | (e & q & Hp & _)]; [by right|].
    apply heappop_length in Hp. unfold measure in Hm. lia.
  - assert (Hs : step st st') by (by eapply loop_body_Continue_fuel).
    pose proof (step_measure _ _ _ _ _ _ _ _ Hwf Hs).
    apply IH; try lia.
    + right. by eapply inv_step.
    + by eapply step_in_graph.
    + by eapply step_explored_in_graph.
  - apply loop_body_Finished in Hb
      as [[Hq ->] | (e & q & Hp & [[Ht ->] | (_ & _ & Hg & ->)])];
      [by right | left | exfalso].
    + destruct Hi as [-> | Hi].
      * simpl in Hp. injection Hp as <- <-. simpl.
        exists [source]. by destruct wfuel.
      * pose proof (heappop_perm _ _ _ Hp) as Hperm.
        pose proof (inv_queue _ _ _ _ _ Hi) as Hq. rewrite Hperm in Hq.
        apply Forall_cons in Hq as [(p & -> & Hpex & _) _].
        destruct (linked_depth _ _ (inv_linked _ _ _ _ _ Hi p Hpex)) as [k Hk].
        apply (walk_depth_fuel _ _ _ Hk).
        pose proof (depth_bound _ _ _ Hk).
        assert (size (dom (explored st)) ≤ size (nodes G))%nat; [|lia].
        apply subseteq_size. intros x Hx. apply Hex. by apply elem_of_dom.
    + pose proof (heappop_perm _ _ _ Hp) as Hperm.
      unfold in_graph in Hin. rewrite Hperm in Hin.
      apply Forall_cons in Hin as [He _].
      destruct Hwf as [Hdom _]. rewrite <- Hdom in He.
      apply elem_of_dom in He as [? He]. unfold getitem in Hg. congruence.
Qed.
End OutcomeFacts.

(** X3. A returned path visits no node twice. *)
Theorem returned_path_is_simple {V : Type} `{Countable V}
    (format : V → string) fuel (G : Graph V) s t h w path :
  greedy_path format fuel G s t h w = Return path → NoDup path.
Proof.
  intros Hrun. apply greedy_path_Return in Hrun.
  by eapply greedy_loop_Return_NoDup.
Qed.

Lemma returned_path_is_simple_witness : NoDup ["A"; "B"; "D"].
Proof.
  apply (returned_path_is_simple id 10 diamond "A" "D" None "weight").
  vm_compute. reflexivity.
Defined.



(** X5. With that much fuel the call decides reachability: it returns a
    path exactly when the graph has a path from the source to the
    target. *)
Theorem greedy_path_decides_reachability {V : Type} `{Countable V}
    (format : V → string) fuel (G : Graph V) s t h w :
  is_multigraph G = false → wf_graph G → s ∈ nodes G → t ∈ nodes G →
  (size (nodes G) + 2 ≤ fuel)%nat →
  (∃ path, greedy_path format fuel G s t h w = Return path)
  ↔ (∃ l, path_from G s t l).
Proof.
  intros Hm Hwf Hs Ht Hf. split.
  - intros [path Hrun]. exists path. apply greedy_path_Return in Hrun.
    by eapply greedy_loop_Return_path.
  - intros Hl.
    assert (Hb : (size (nodes G) ≤ fuel)%nat) by lia.
    destruct (loop_bound format G s t (default default_heuristic h) w Hwf
                (measure G (init s)) (init s)) with (wfuel := fuel) (fuel := fuel)
      as [Hret | Hno]; try done.
    + by left.
    + constructor; [done | constructor].
    + intros n. simpl. rewrite lookup_empty. by intros [? ?].
    + unfold measure. simpl. rewrite dom_empty_L, difference_empty_L. lia.
    + by rewrite greedy_path_unfold.
    + by apply greedy_loop_no_path in Hno.
Qed.

Lemma greedy_path_decides_reachability_witness :
  (∃ path, greedy_path id 5 back_edge "A" "C" None "weight" = Return path)
  ↔ (∃ l, path_from back_edge "A" "C" l).
Proof.
  apply (greedy_path_decides_reachability id 5 back_edge "A" "C" None "weight").
  - reflexivity.
  - split; [vm_compute; reflexivity|].
    apply (bool_decide_unpack _). vm_compute. exact I.
  - vm_compute. reflexivity.
  - vm_compute. reflexivity.
  - vm_compute. lia.
Defined.

(** X6. The lookups [explored[node]] of the path reconstruction never fail:
    a [KeyError] can only name a node of the frontier (the source, or the
    head of an edge) that has no adjacency dictionary, so on a well-formed
    graph that holds the source there is none. *)
Theorem key_error_only_from_adjacency {V : Type} `{Countable V}
    (format : V → string) fuel (G : Graph V) s t h w k :
  greedy_path format fuel G s t h w = Raise (KeyError k) →
  getitem G k = None
  ∧ (k = s ∨ ∃ u, has_edge G u k)
  ∧ ¬ (wf_graph G ∧ s ∈ nodes G).
Proof.
  intros Hrun. apply greedy_path_Raise_loop in Hrun; [|done|done].
  apply greedy_loop_KeyError in Hrun as [Hg Hk].
  split; [done|]. split; [done|]. intros [[Hdom Hnb] Hs].
  assert (Hin : k ∈ nodes G).
  { destruct Hk as [-> | (u & nbrs & a & Hu & Ha)]; [done|].
    specialize (Hnb u nbrs Hu). rewrite Forall_forall in Hnb.
    exact (Hnb _ Ha). }
  rewrite <- Hdom in Hin. apply elem_of_dom in Hin as [? Hin].
  unfold getitem in Hg. congruence.
Qed.

Lemma key_error_only_from_adjacency_witness :
  getitem dangling "B" = None
  ∧ ("B" = "A" ∨ ∃ u, has_edge dangling u "B")
  ∧ ¬ (wf_graph dangling ∧ "A" ∈ nodes dangling).
Proof.
  apply (key_error_only_from_adjacency id 5 dangling "A" "C" None "weight").
  vm_compute. reflexivity.
Defined.

(** ** What the ledger of discoveries records *)

Section LedgerFacts.
Context {V : Type} `{Countable V}.
Variable format : V → string.
Variable G : Graph V.
Variables source target : V.
Variable heuristic : V → V → Z.
Variable weight : string.

Local Abbreviation step := (step format G source target heuristic weight).
Local Abbreviation ledger_inv :=
  (ledger_inv G source target heuristic weight).

Lemma wpath_path_from n l d :
  wpath G weight source n l d → path_from G source n l.
Proof.
  induction 1 as [|n m l d items a _ IH Hg Ha]; [constructor|].
  eapply path_from_snoc; [exact IH|]. by exists items, a.
Qed.

Lemma ledger_init : ledger_inv (init source).
Proof.
  split; simpl.
  - constructor; [|constructor]. exists [source]. constructor.
  - intros n d hv. by rewrite lookup_empty.
Qed.

Lemma ledger_step (st st' : state V) :
  ledger_inv st → step st st' → ledger_inv st'.
Proof.
  intros Hi Hs. apply loop_body_Continue in Hs as (e & q & Hp & _ & Hcase).
  apply heappop_perm in Hp. destruct Hi as [Hq Henq].
  rewrite Hp in Hq. apply Forall_cons in Hq as [[le Hle] Hq].
  destruct Hcase as [[_ ->] | (_ & items & Hg & ->)]; [by split|].
  destruct (expand_spec target heuristic weight (qnode e) (qdist e) items
              (mkState q (c st) (enqueued st)
                 (<[qnode e := qparent e]> (explored st)))) as [new Hx].
  destruct Hx. simpl in *.
  assert (Hnew : Forall (λ e', priority e' = heuristic (qnode e') target
                   ∧ ∃ l, wpath G weight source (qnode e') l (qdist e')) new).
  { eapply Forall_impl; [exact exp_entries0|].
    intros e' (Hprio & _ & _ & a & Ha & ->). split; [done|].
    exists (le ++ [qnode e']). by eapply wpath_snoc. }
  split.
  - rewrite exp_queue0. simpl. apply Forall_app. split; [done|].
    eapply Forall_impl; [exact Hnew|]. by intros e' [_ ?].
  - intros n d hv Hn.
    destruct (enqueued st !! n) as [r|] eqn:Hold.
    + rewrite (exp_keep0 n r Hold) in Hn. injection Hn as ->. by apply Henq.
    + assert (Hin : n ∈ qnode <$> new).
      { destruct (proj1 (exp_dom0 n)) as [[? ?] | ?]; [by eexists | congruence | done]. }
      apply list_elem_of_fmap in Hin as (e' & -> & He').
      rewrite Forall_forall in exp_record0, Hnew.
      rewrite (exp_record0 e' He') in Hn. injection Hn as <- <-.
      destruct (Hnew e' He') as [-> ?]. done.
Qed.

Lemma ledger_reachable (st : state V) :
  reachable format G source target heuristic weight st → ledger_inv st.
Proof.
  unfold reachable. intros Hr.
  assert (Hgen : ∀ a b, rtc step a b → ledger_inv a → ledger_inv b).
  { induction 1 as [|a b d Hab _ IH]; [done|].
    intros Ha. apply IH. by eapply ledger_step. }
  eapply Hgen; [exact Hr | apply ledger_init].
Qed.
End LedgerFacts.

(** X7. In every state the main loop can reach, the pair recorded in
    [enqueued] for a node is the total weight of a path of the graph from
    the source to that node (an absent weight counting 1) and the heuristic
    of the node; every frontier entry carries such a distance too. *)
Theorem discovered_distance_is_path_weight {V : Type} `{Countable V}
    (format : V → string) (G : Graph V) s t (h : V → V → Z) w
    (st : state V) :
  reachable format G s t h w st →
  (∀ n d hv, enqueued st !! n = Some (d, hv) →
     hv = h n t ∧ ∃ l, wpath G w s n l d ∧ path_from G s n l)
  ∧ Forall (λ e, ∃ l, wpath G w s (qnode e) l (qdist e)) (queue st).
Proof.
  intros Hr. destruct (ledger_reachable format G s t h w st Hr) as [Hq Henq].
  split; [|done]. intros n d hv Hn.
  destruct (Henq n d hv Hn) as [-> [l Hl]]. split; [done|].
  exists l. split; [done|]. by eapply wpath_path_from.
Qed.

Lemma discovered_distance_is_path_weight_witness :
  let st := state_after id diamond "A" "D" default_heuristic "weight" 2 in
  (∀ n d hv, enqueued st !! n = Some (d, hv) →
     hv = default_heuristic n "D"
     ∧ ∃ l, wpath diamond "weight" "A" n l d ∧ path_from diamond "A" n l)
  ∧ Forall (λ e, ∃ l, wpath diamond "weight" "A" (qnode e) l (qdist e))
           (queue st).
Proof.
  apply (discovered_distance_is_path_weight id diamond "A" "D"
           default_heuristic "weight").
  apply (state_after_reachable id diamond "A" "D" default_heuristic
           "weight" 2).
  vm_compute. reflexivity.
Defined.

(** ** The search under a constantly zero heuristic *)

Section BfsFacts.
Context {V : Type} `{Countable V}.
Variable format : V → string.
Variable G : Graph V.
Variables source target : V.
Variable heuristic : V → V → Z.
Variable weight : string.
Hypothesis heuristic_zero : ∀ u, heuristic u target = 0.

Local Abbreviation step := (step format G source target heuristic weight).
Local Abbreviation loop_body :=
  (loop_body format G source target heuristic weight).
Local Abbreviation greedy_loop :=
  (greedy_loop format G source target heuristic weight).
Local Abbreviation inv := (inv G source target heuristic).
Local Abbreviation expand := (expand target heuristic weight).













End BfsFacts.



(** X9. In every state the main loop can reach, a node other than the
    source has at most one entry in the frontier, and a node with an entry
    there is discovered and not yet recorded in [explored]: no node is
    expanded twice. *)
Theorem frontier_entries_are_unique {V : Type} `{Countable V}
    (format : V → string) (G : Graph V) s t (h : V → V → Z) w
    (st : state V) :
  reachable format G s t h w st →
  NoDup (filter (λ n, n ≠ s) (qnode <$> queue st))
  ∧ (∀ e, e ∈ queue st → qnode e ≠ s →
       explored st !! qnode e = None ∧ is_Some (enqueued st !! qnode e))
  ∧ (∀ n, is_Some (explored st !! n) → n = s ∨ is_Some (enqueued st !! n)).
Proof.
  intros Hr. apply inv_reachable in Hr as [-> | Hi].
  - simpl. split; [|split].
    + rewrite filter_cons_False by (intros Hn; by apply Hn). constructor.
    + intros e He Hn. apply list_elem_of_singleton in He as ->. done.
    + intros n. rewrite lookup_empty. by intros [? ?].
  - destruct Hi. split; [done|]. split; [|done].
    intros e He Hn. rewrite Forall_forall in inv_queue0.
    destruct (inv_queue0 e He) as (p & _ & _ & _ & Henq & Hfresh & _).
    split; [by apply Hfresh | done].
Qed.

Lemma frontier_entries_are_unique_witness :
  let st := state_after id diamond "A" "D" default_heuristic "weight" 2 in
  NoDup (filter (λ n, n ≠ "A") (qnode <$> queue st))
  ∧ (∀ e, e ∈ queue st → qnode e ≠ "A" →
       explored st !! qnode e = None ∧ is_Some (enqueued st !! qnode e))
  ∧ (∀ n, is_Some (explored st !! n) → n = "A" ∨ is_Some (enqueued st !! n)).
Proof.
  apply (frontier_entries_are_unique id diamond "A" "D" default_heuristic
           "weight").
  apply (state_after_reachable id diamond "A" "D" default_heuristic
           "weight" 2).
  vm_compute. reflexivity.
Defined.

(** ** The counter and the size of the frontier *)

Section CountFacts.
Context {V : Type} `{Countable V}.
Variable format : V → string.
Variable G : Graph V.
Variables source target : V.
Variable heuristic : V → V → Z.
Variable weight : string.

Local Abbreviation step := (step format G source target heuristic weight).

Lemma visit_counted cur dist (st : state V) it :
  it.1 ∈ nodes G → counted G st →
  counted G (visit target heuristic weight cur dist st it).
Proof.
  destruct it as [n a]. intros Hn [Hc Hd]. simpl in Hn.
  destruct (enqueued st !! n) as [r|] eqn:Hq.
  - by rewrite (visit_old _ _ _ _ _ _ _ _ _ Hq).
  - rewrite (visit_new _ _ _ _ _ _ _ _ Hq). split; simpl.
    + by rewrite map_size_insert_None, Hc.
    + rewrite dom_insert_L. intros x Hx.
      apply elem_of_union in Hx as [Hx | Hx]; [|by apply Hd].
      by apply elem_of_singleton in Hx as ->.
Qed.

Lemma expand_counted cur dist items :
  Forall (λ it : V * gmap string Z, it.1 ∈ nodes G) items →
  ∀ st : state V, counted G st →
    counted G (expand target heuristic weight cur dist items st).
Proof.
  unfold expand. induction 1 as [|it items Hit _ IH]; intros st Hc; [done|].
  simpl. apply IH. by apply visit_counted.
Qed.

Lemma step_counted (st st' : state V) :
  wf_graph G → counted G st → step st st' → counted G st'.
Proof.
  intros Hwf Hc Hs. apply loop_body_Continue in Hs as (e & q & _ & _ & Hcase).
  destruct Hcase as [[_ ->] | (_ & items & Hg & ->)]; [done|].
  apply expand_counted; [by eapply wf_items | done].
Qed.

Lemma counted_reachable (st : state V) :
  wf_graph G →
  reachable format G source target heuristic weight st → counted G st.
Proof.
  intros Hwf Hr.
  assert (Hgen : ∀ a b, rtc step a b → counted G a → counted G b).
  { induction 1 as [|a b d Hab _ IH]; [done|].
    intros Ha. apply IH. by eapply step_counted. }
  eapply Hgen; [exact Hr|]. split; simpl.
  - by rewrite map_size_empty.
  - rewrite dom_empty_L. apply empty_subseteq.
Qed.

Lemma NoDup_below_length (l : list nat) n :
  NoDup l → Forall (λ x, (x < n)%nat) l → (length l ≤ n)%nat.
Proof.
  intros Hnd Hl. rewrite <- (size_list_to_set (C := gset nat) l) by done.
  rewrite <- (size_set_seq (C := gset nat) 0 n).
  apply subseteq_size. intros x Hx. apply elem_of_list_to_set in Hx.
  rewrite Forall_forall in Hl. apply elem_of_set_seq. specialize (Hl x Hx). lia.
Qed.
End CountFacts.

(** X10. On a well-formed graph, in every state the main loop can reach,
    the counter is one more than the number of discovered nodes, the
    frontier holds no more entries than the counter has issued, and the
    counter never passes the number of nodes of the graph plus one. *)
Theorem frontier_is_bounded {V : Type} `{Countable V}
    (format : V → string) (G : Graph V) s t (h : V → V → Z) w
    (st : state V) :
  wf_graph G → reachable format G s t h w st →
  c st = S (size (enqueued st))
  ∧ (length (queue st) ≤ c st)%nat
  ∧ (c st ≤ S (size (nodes G)))%nat.
Proof.
  intros Hwf Hr.
  destruct (counted_reachable format G s t h w st Hwf Hr) as [Hc Hd].
  split; [done|]. split.
  - apply inv_reachable in Hr as [-> | Hi]; [simpl; lia|].
    rewrite <- (length_fmap seqno).
    apply NoDup_below_length.
    + exact (inv_seq_nodup _ _ _ _ _ Hi).
    + apply Forall_fmap. exact (inv_seq _ _ _ _ _ Hi).
  - rewrite Hc. apply le_n_S. rewrite <- size_dom. by apply subseteq_size.
Qed.

Lemma frontier_is_bounded_witness :
  let st := state_after id diamond "A" "D" default_heuristic "weight" 2 in
  c st = S (size (enqueued st))
  ∧ (length (queue st) ≤ c st)%nat
  ∧ (c st ≤ S (size (nodes diamond)))%nat.
Proof.
  apply (frontier_is_bounded id diamond "A" "D" default_heuristic "weight").
  - exact wf_graph_diamond.
  - apply (state_after_reachable id diamond "A" "D" default_heuristic
             "weight" 2).
    vm_compute. reflexivity.
Defined.

(** ** The heuristic is read towards the target only *)

Section HeuristicFacts.
Context {V : Type} `{Countable V}.
Variable format : V → string.
Variable G : Graph V.
Variables source target : V.
Variables h1 h2 : V → V → Z.
Variable weight : string.
Hypothesis same_towards_target : ∀ u, h1 u target = h2 u target.

Lemma visit_heuristic cur dist (st : state V) it :
  visit target h1 weight cur dist st it = visit target h2 weight cur dist st it.
Proof.
  destruct it as [n a]. unfold visit.
  destruct (enqueued st !! n) as [[? ?]|]; [done|].
  by rewrite same_towards_target.
Qed.

Lemma expand_heuristic cur dist items : ∀ st : state V,
  expand target h1 weight cur dist items st
  = expand target h2 weight cur dist items st.
Proof.
  unfold expand. induction items as [|it items IH]; intros st; [done|].
  simpl. by rewrite visit_heuristic, IH.
Qed.

Lemma loop_body_heuristic wfuel (st : state V) :
  loop_body format G source target h1 weight wfuel st
  = loop_body format G source target h2 weight wfuel st.
Proof.
  unfold loop_body. destruct (heappop (queue st)) as [[e q]|]; [|done].
  destruct (decide (qnode e = target)); [done|].
  destruct (decide (explored st !! qnode e = Some None)); [done|].
  destruct (getitem G (qnode e)); [|done].
  by rewrite expand_heuristic.
Qed.

Lemma greedy_loop_heuristic wfuel fuel : ∀ st : state V,
  greedy_loop format G source target h1 weight wfuel fuel st
  = greedy_loop format G source target h2 weight wfuel fuel st.
Proof.
  induction fuel as [|fuel IH]; intros st; [done|]. simpl.
  rewrite loop_body_heuristic.
  by destruct (loop_body format G source target h2 weight wfuel st).
Qed.
End HeuristicFacts.

(** X11. The heuristic is only ever read with the target as its second
    argument: two heuristics that agree towards the target give the same
    outcome, and passing no heuristic is the same as passing one that is
    zero towards the target. *)
Theorem heuristic_matters_towards_target_only {V : Type} `{Countable V}
    (format : V → string) fuel (G : Graph V) s t h1 h2 w :
  (∀ u, default default_heuristic h1 u t = default default_heuristic h2 u t) →
  greedy_path format fuel G s t h1 w = greedy_path format fuel G s t h2 w.
Proof.
  intros Hh. unfold greedy_path, not_implemented_for_multigraph, greedy_path_body.
  destruct (is_multigraph G); [done|].
  destruct (negb (contains G s) || negb (contains G t)); [done|].
  by apply greedy_loop_heuristic.
Qed.

Lemma heuristic_matters_towards_target_only_witness :
  greedy_path id 10 diamond "A" "D" None "weight"
  = greedy_path id 10 diamond "A" "D"
      (Some (λ u v, if decide (v = "D") then 0 else 7)) "weight".
Proof.
  apply (heuristic_matters_towards_target_only id 10 diamond "A" "D").
  intros u. reflexivity.
Defined.

(** ** Where [NodeNotFound] comes from *)

Lemma walk_not_node_not_found {V : Type} `{Countable V} fuel
    (ex : gmap V (option V)) : ∀ node acc msg,
  walk fuel ex node acc ≠ Raise (NodeNotFound msg).
Proof.
  induction fuel as [|fuel IH]; intros [n|] acc msg; simpl; try done.
  destruct (ex !! n); [apply IH | done].
Qed.

Lemma greedy_loop_not_node_not_found {V : Type} `{Countable V}
    (format : V → string) (G : Graph V) s t h w wfuel fuel msg :
  ∀ st : state V,
    greedy_loop format G s t h w wfuel fuel st ≠ Raise (NodeNotFound msg).
Proof.
  induction fuel as [|fuel IH]; intros st; simpl; [done|].
  destruct (loop_body format G s t h w wfuel st) as [st'|o] eqn:Hb; [apply IH|].
  apply loop_body_Finished in Hb
    as [[_ ->] | (e & q & _ & [[_ ->] | (_ & _ & _ & ->)])]; try done.
  apply walk_not_node_not_found.
Qed.

(** X12. [NodeNotFound] is raised only when the source or the target is
    missing from the graph, and then with the message of lines 56-57: the
    search itself never raises it. *)
Theorem node_not_found_is_sound {V : Type} `{Countable V}
    (format : V → string) fuel (G : Graph V) s t h w msg :
  greedy_path format fuel G s t h w = Raise (NodeNotFound msg) →
  (s ∉ nodes G ∨ t ∉ nodes G) ∧ msg = node_not_found_msg format s t.
Proof.
  unfold greedy_path, not_implemented_for_multigraph, greedy_path_body, contains.
  destruct (is_multigraph G); [done|].
  destruct (decide (s ∈ nodes G)) as [Hs | Hs];
    [rewrite (bool_decide_eq_true_2 _ Hs)
    | rewrite (bool_decide_eq_false_2 _ Hs)]; simpl.
  - destruct (decide (t ∈ nodes G)) as [Ht | Ht];
      [rewrite (bool_decide_eq_true_2 _ Ht)
      | rewrite (bool_decide_eq_false_2 _ Ht)]; simpl.
    + intros Hrun. by apply greedy_loop_not_node_not_found in Hrun.
    + intros [= <-]. split; [by right | done].
  - intros [= <-]. split; [by left | done].
Qed.

Lemma node_not_found_is_sound_witness :
  ("A" ∉ nodes only_B ∨ "B" ∉ nodes only_B)
  ∧ "Either source A or target B is not in G" = node_not_found_msg id "A" "B".
Proof.
  apply (node_not_found_is_sound id 3 only_B "A" "B" None "weight").
  vm_compute. reflexivity.
Defined.
